(** * Anonymous chat coordination core (anonymous-chat/backend/server.js)

    A shallow embedding of the socket handlers of the chat server: the
    in-memory [messages] array, the [users] map, and the four handlers
    registered in [io.on('connection', ...)].  Values that the server
    obtains from its environment (socket ids, [uuidv4()], [new Date()],
    the generated user name) are carried by the inbound events. *)

From stdpp Require Import gmap strings list fin_maps pretty.
From Stdlib Require Import ZArith Lia.

Local Open Scope string_scope.
Local Open Scope list_scope.
Local Open Scope nat_scope.

(** ** JavaScript values received on the wire *)

(** Payloads are decoded JSON.  Numbers are restricted to integers, which
    is all the handlers can distinguish. *)
#[warnings="-register-all"]
Inductive JsVal : Type :=
| JUndefined
| JNull
| JBool (b : bool)
| JNum (n : Z)
| JStr (s : string)
| JObj (props : list (string * JsVal)).

Inductive JsError : Type :=
| TypeError.

(** A handler either returns normally or throws. *)
Inductive Result (A : Type) : Type :=
| Ok (a : A)
| Throw (e : JsError).

Arguments Ok {A} a.
Arguments Throw {A} e.

#[export] Instance Result_ret : MRet Result := fun _ a => Ok a.
#[export] Instance Result_bind : MBind Result := fun _ _ f r =>
  match r with
  | Ok a => f a
  | Throw e => Throw e
  end.

Fixpoint own_prop (k : string) (props : list (string * JsVal)) : option JsVal :=
  match props with
  | [] => None
  | (k', v) :: rest => if decide (k' = k) then Some v else own_prop k rest
  end.

(** [v.k] for the payload keys the handlers read ([text], [messageId],
    [voteType]): reading a property of [undefined] or [null] throws a
    TypeError, a primitive has no such property, an object yields its own
    property or [undefined]. *)
Definition get_prop (v : JsVal) (k : string) : Result JsVal :=
  match v with
  | JUndefined | JNull => Throw TypeError
  | JObj props => Ok (default JUndefined (own_prop k props))
  | JBool _ | JNum _ | JStr _ => Ok JUndefined
  end.

(** [s === v] where the left operand is known to be a string. *)
Definition strict_eq_str (s : string) (v : JsVal) : bool :=
  match v with
  | JStr t => bool_decide (s = t)
  | _ => false
  end.

(** ** [Set] of strings, in insertion order *)

Module JsSet.
Definition t : Type := list string.
Definition empty : t := [].
Definition has (x : string) (s : t) : bool :=
  bool_decide (x ∈ s).
Definition add (x : string) (s : t) : t := if has x s then s else s ++ [x].
Definition size (s : t) : nat := length s.
(** [Array.from(s)] *)
Definition to_array (s : t) : list string := s.
End JsSet.

(** ** Data model *)

Module User.
Record t : Type := mk { username : string; joinedAt : Z }.
End User.

Module Message.
Record t : Type := mk {
  id : string;
  text : JsVal;
  username : string;
  timestamp : Z;
  votes : Z;
  voters : JsSet.t
}.

Definition with_vote (delta : Z) (userId : string) (m : t) : t :=
  {| id := id m; text := text m; username := username m;
     timestamp := timestamp m;
     votes := (votes m + delta)%Z;
     voters := JsSet.add userId (voters m) |}.
End Message.

(** What the server emits. *)
Inductive Payload : Type :=
| initial_messages (ms : list Message.t)
| username_assigned (name : string)
| user_count (n : nat)
| new_message (m : Message.t)
| message_updated (messageId : string) (votes : Z) (voters : list string).

Inductive Emit : Type :=
| socket_emit (sid : string) (p : Payload)
| io_emit (p : Payload).

(** The two module-level variables of server.js. *)
Record State : Type := mkState {
  messages : list Message.t;
  users : gmap string User.t
}.

Definition initial_state : State := {| messages := []; users := ∅ |}.

Definition capacity : nat := 100.

(** ** The handlers *)

(** [l.slice(-n)] *)
Definition slice_last {A} (n : nat) (l : list A) : list A :=
  drop (length l - n) l.

(** [io.on('connection', socket => ...)] up to the registration of the
    per-socket handlers. *)
Definition on_connection (sid name : string) (now : Z) (st : State)
  : Result (State * list Emit) :=
  let users' := <[sid := User.mk name now]> (users st) in
  Ok ({| messages := messages st; users := users' |},
      [ socket_emit sid (initial_messages (messages st));
        socket_emit sid (username_assigned name);
        io_emit (user_count (size users')) ]).

(** [socket.on('send_message', data => ...)] *)
Definition on_send_message (sid : string) (data : JsVal) (uuid : string)
    (now : Z) (st : State) : Result (State * list Emit) :=
  match users st !! sid with
  | None => Ok (st, [])
  | Some user =>
      txt ← get_prop data "text";
      let message :=
        Message.mk uuid txt (User.username user) now 0%Z JsSet.empty in
      let pushed := messages st ++ [message] in
      let messages' :=
        if decide (capacity < length pushed)
        then slice_last capacity pushed else pushed in
      Ok ({| messages := messages'; users := users st |},
          [ io_emit (new_message message) ])
  end.

(** [messages.find(m => m.id === messageId)], with the index of the
    element found, since the handler updates that element in place. *)
Definition find_message (messageId : JsVal) (ms : list Message.t)
  : option (nat * Message.t) :=
  list_find (fun m => Is_true (strict_eq_str (Message.id m) messageId)) ms.

(** The two-branch conditional of the vote handler. *)
Definition cast_vote (voteType : JsVal) (userId : string) (message : Message.t)
  : Message.t :=
  let hasVoted := JsSet.has userId (Message.voters message) in
  if strict_eq_str "up" voteType && negb hasVoted
  then Message.with_vote 1 userId message
  else if strict_eq_str "down" voteType && negb hasVoted
  then Message.with_vote (-1) userId message
  else message.

(** [socket.on('vote_message', data => ...)] *)
Definition on_vote_message (sid : string) (data : JsVal) (st : State)
  : Result (State * list Emit) :=
  messageId ← get_prop data "messageId";
  voteType ← get_prop data "voteType";
  match find_message messageId (messages st) with
  | None => Ok (st, [])
  | Some (i, message) =>
      let message' := cast_vote voteType sid message in
      Ok ({| messages := <[i := message']> (messages st);
             users := users st |},
          [ io_emit (message_updated (Message.id message')
                       (Message.votes message')
                       (JsSet.to_array (Message.voters message'))) ])
  end.

(** [socket.on('disconnect', () => ...)] *)
Definition on_disconnect (sid : string) (st : State)
  : Result (State * list Emit) :=
  let users' := delete sid (users st) in
  Ok ({| messages := messages st; users := users' |},
      [ io_emit (user_count (size users')) ]).

(** ** Event traces *)

Inductive Event : Type :=
| connection (sid name : string) (now : Z)
| send_message (sid : string) (data : JsVal) (uuid : string) (now : Z)
| vote_message (sid : string) (data : JsVal)
| disconnect (sid : string).

Definition step (e : Event) (st : State) : Result (State * list Emit) :=
  match e with
  | connection sid name now => on_connection sid name now st
  | send_message sid data uuid now => on_send_message sid data uuid now st
  | vote_message sid data => on_vote_message sid data st
  | disconnect sid => on_disconnect sid st
  end.

(** Events are handled one at a time, each to completion. *)
Fixpoint run (tr : list Event) (st : State) : Result (State * list Emit) :=
  match tr with
  | [] => Ok (st, [])
  | e :: rest =>
      r ← step e st;
      r' ← run rest r.1;
      Ok (r'.1, r.2 ++ r'.2)
  end.

Definition text_payload (s : string) : JsVal := JObj [("text", JStr s)].
Definition vote_payload (messageId : string) (voteType : JsVal) : JsVal :=
  JObj [("messageId", JStr messageId); ("voteType", voteType)].

(** ** Ghost bookkeeping used only in statements *)

Definition ids (st : State) : list string := Message.id <$> messages st.

(** The identifiers produced by [uuidv4()] along a trace. *)
Fixpoint uuids (tr : list Event) : list string :=
  match tr with
  | [] => []
  | send_message _ _ uuid _ :: rest => uuid :: uuids rest
  | _ :: rest => uuids rest
  end.

(** The socket ids handed out by the transport along a trace. *)
Fixpoint connection_ids (tr : list Event) : list string :=
  match tr with
  | [] => []
  | connection sid _ _ :: rest => sid :: connection_ids rest
  | _ :: rest => connection_ids rest
  end.

Fixpoint disconnect_ids (tr : list Event) : list string :=
  match tr with
  | [] => []
  | disconnect sid :: rest => sid :: disconnect_ids rest
  | _ :: rest => disconnect_ids rest
  end.

Definition fresh_message (uuid : string) (txt : JsVal) (user : User.t)
    (now : Z) : Message.t :=
  Message.mk uuid txt (User.username user) now 0%Z JsSet.empty.

(** Number of entries dropped from the front by the capacity trim. *)
Definition evicted (st : State) : nat := S (length (messages st)) - capacity.

(** ** Concrete traces used in the checks *)

Definition scenario_votes : list Event :=
  [ connection "A" "SilentUser1" 10;
    connection "B" "ShadowGuest2" 11;
    connection "C" "HiddenSoul3" 12;
    send_message "A" (text_payload "hello") "m1" 20;
    vote_message "B" (vote_payload "m1" (JStr "up"));
    vote_message "C" (vote_payload "m1" (JStr "down")) ].

Definition scenario_message : Message.t :=
  Message.mk "m1" (JStr "hello") "SilentUser1" 20 0 ["B"; "C"].

Definition scenario_state : State :=
  {| messages := [ scenario_message ];
     users := {[ "A" := User.mk "SilentUser1" 10;
                 "B" := User.mk "ShadowGuest2" 11;
                 "C" := User.mk "HiddenSoul3" 12 ]} |}.

(** ** What a step does to the store *)

Inductive step_effect (e : Event) (st st' : State) : Prop :=
| effect_none :
    messages st' = messages st →
    step_effect e st st'
| effect_append sid data uuid now user txt :
    e = send_message sid data uuid now →
    users st !! sid = Some user →
    get_prop data "text" = Ok txt →
    messages st' =
      drop (evicted st) (messages st) ++ [fresh_message uuid txt user now] →
    step_effect e st st'
| effect_vote sid data messageId voteType i m :
    e = vote_message sid data →
    get_prop data "messageId" = Ok messageId →
    get_prop data "voteType" = Ok voteType →
    find_message messageId (messages st) = Some (i, m) →
    messages st' = <[i := cast_vote voteType sid m]> (messages st) →
    step_effect e st st'.

(** A session that floods the chat: one connection, then [n] messages. *)
Definition flood_uuid (k : nat) : string := "m" +:+ pretty k.

Definition flood_from (start n : nat) : list Event :=
  (fun k => send_message "A" (text_payload "x") (flood_uuid k) (Z.of_nat k))
    <$> seq start n.

Definition flood (n : nat) : list Event :=
  connection "A" "SilentUser1" 0 :: flood_from 0 n.

(** State and output of a trace, for concrete checks. *)
Definition state_after (tr : list Event) (st : State) : State :=
  match run tr st with
  | Ok r => r.1
  | Throw _ => st
  end.

Definition output_after (tr : list Event) (st : State) : list Emit :=
  match run tr st with
  | Ok r => r.2
  | Throw _ => []
  end.

Definition flood_state (n : nat) : State := state_after (flood n) initial_state.

Definition flood_output (n : nat) : list Emit :=
  output_after (flood n) initial_state.

Definition after_flood : list Event :=
  [ disconnect "A"; connection "B" "ShadowGuest2" 200;
    send_message "B" (text_payload "hi") "m101" 201 ].

(** ** The user count, as the specification words it *)

(** Connections in the trace that no later [disconnect] of the same socket
    id matches. *)
Fixpoint unmatched (tr : list Event) : nat :=
  match tr with
  | [] => 0
  | connection sid _ _ :: rest =>
      (if bool_decide (sid ∈ disconnect_ids rest) then 0 else 1) + unmatched rest
  | _ :: rest => unmatched rest
  end.

(** Entries of [users] that the trace does not disconnect. *)
Definition surviving (tr : list Event) (m : gmap string User.t)
  : gmap string User.t :=
  filter (fun kv => kv.1 ∉ disconnect_ids tr) m.

Definition scenario_sessions : list Event :=
  [ connection "A" "SilentUser1" 10;
    connection "B" "ShadowGuest2" 11;
    disconnect "A";
    disconnect "A";
    connection "C" "HiddenSoul3" 12;
    disconnect "Z" ].

(** ** The vote ledger, as the specification words it *)

Inductive Direction : Type := Up | Down.

Definition direction_name (d : Direction) : string :=
  match d with Up => "up" | Down => "down" end.

Definition direction_delta (d : Direction) : Z :=
  match d with Up => 1%Z | Down => (-1)%Z end.

Definition rename (name : string) (m : Message.t) : Message.t :=
  {| Message.id := Message.id m; Message.text := Message.text m;
     Message.username := name; Message.timestamp := Message.timestamp m;
     Message.votes := Message.votes m; Message.voters := Message.voters m |}.

Record VoteRecord : Type := mkVote {
  on_message : string;
  by_voter : string;
  direction : Direction
}.

Definition parse_direction (v : JsVal) : option Direction :=
  match v with
  | JStr s =>
      if String.eqb s "up" then Some Up
      else if String.eqb s "down" then Some Down
      else None
  | _ => None
  end.

(** [find(messageId)] of the specification: the stored message with that
    identifier, if any. *)
Definition lookup_message (mid : string) (ms : list Message.t)
  : option Message.t :=
  List.find (fun m => String.eqb (Message.id m) mid) ms.

(** The specification's [applyVote]: a vote is accepted unless the message
    is unknown, the voter is already among its voters, or the direction is
    not one of the two. *)
Definition accepted_vote (st : State) (sid : string) (data : JsVal)
  : option VoteRecord :=
  match data with
  | JObj props =>
      match own_prop "messageId" props, own_prop "voteType" props with
      | Some (JStr mid), Some voteType =>
          match lookup_message mid (messages st), parse_direction voteType with
          | Some m, Some d =>
              if bool_decide (sid ∈ Message.voters m) then None
              else Some (mkVote mid sid d)
          | _, _ => None
          end
      | _, _ => None
      end
  | _ => None
  end.

Definition recorded (e : Event) (st : State) : list VoteRecord :=
  match e with
  | vote_message sid data =>
      match accepted_vote st sid data with
      | Some r => [r]
      | None => []
      end
  | _ => []
  end.

(** The accepted votes along a trace, oldest first. *)
Fixpoint history (tr : list Event) (st : State) : list VoteRecord :=
  match tr with
  | [] => []
  | e :: rest =>
      recorded e st ++
      match step e st with
      | Ok r => history rest r.1
      | Throw _ => []
      end
  end.

Definition votes_on (mid : string) (log : list VoteRecord) : list VoteRecord :=
  filter (fun r => on_message r = mid) log.

#[export] Instance Direction_eq_dec : EqDecision Direction.
Proof. solve_decision. Defined.

Definition count_direction (d : Direction) (log : list VoteRecord) : nat :=
  length (filter (fun r => direction r = d) log).

Definition tallied (log : list VoteRecord) (m : Message.t) : Prop :=
  Message.votes m =
    (Z.of_nat (count_direction Up (votes_on (Message.id m) log)) -
     Z.of_nat (count_direction Down (votes_on (Message.id m) log)))%Z ∧
  Message.voters m = by_voter <$> votes_on (Message.id m) log.

(** ** The name generator *)

Definition adjectives : list string :=
  [ "Mysterious"; "Anonymous"; "Silent"; "Shadow"; "Phantom"; "Ghost";
    "Whisper"; "Secret"; "Hidden"; "Masked"; "Cryptic"; "Enigma";
    "Stealth"; "Invisible"; "Unknown"; "Veiled"; "Cloaked"; "Nameless" ].

Definition nouns : list string :=
  [ "User"; "Visitor"; "Wanderer"; "Stranger"; "Guest"; "Traveler";
    "Observer"; "Lurker"; "Watcher"; "Presence"; "Entity"; "Being";
    "Soul"; "Spirit"; "Figure"; "Person"; "Individual"; "Someone" ].

(** An array element inside a template literal: past the end the element
    is [undefined], which prints as such. *)
Definition template_elem (l : list string) (i : nat) : string :=
  default "undefined" (l !! i).

(** [generateAnonymousName()].  The three arguments are the values of
    [Math.floor(Math.random() * adjectives.length)],
    [Math.floor(Math.random() * nouns.length)] and
    [Math.floor(Math.random() * 999)]. *)
Definition generateAnonymousName (adj_draw noun_draw number_draw : nat)
  : string :=
  let adj := template_elem adjectives adj_draw in
  let noun := template_elem nouns noun_draw in
  let number := number_draw + 1 in
  adj +:+ noun +:+ pretty number.

Definition is_digit (c : Ascii.ascii) : bool :=
  let n := Ascii.nat_of_ascii c in (48 <=? n) && (n <=? 57).

(** The longest prefix without a decimal digit. *)
Fixpoint letters_prefix (s : string) : string :=
  match s with
  | EmptyString => EmptyString
  | String c rest => if is_digit c then EmptyString else String c (letters_prefix rest)
  end.

Fixpoint has_digit (s : string) : bool :=
  match s with
  | EmptyString => false
  | String c rest => is_digit c || has_digit rest
  end.

Definition starts_with_digit (s : string) : bool :=
  match s with
  | EmptyString => false
  | String c _ => is_digit c
  end.

(** ** The HTTP endpoints *)

Module Health.
Record t : Type := mk { status : string; users : nat; messages : nat }.
End Health.

(** [app.get('/health', ...)] *)
Definition health (st : State) : Health.t :=
  {| Health.status := "OK";
     Health.users := size (users st);
     Health.messages := length (messages st) |}.

(** [app.get('/api/messages', ...)] *)
Definition api_messages (st : State) : list Message.t :=
  (fun msg =>
     {| Message.id := Message.id msg; Message.text := Message.text msg;
        Message.username := Message.username msg;
        Message.timestamp := Message.timestamp msg;
        Message.votes := Message.votes msg;
        Message.voters := JsSet.to_array (Message.voters msg) |})
    <$> messages st.

(** ** The client (frontend/src/App.js) *)

(** The three pieces of React state that the server's events set. *)
Module Client.
Record t : Type := mk {
  messages : list Message.t;
  username : string;
  userCount : nat
}.
End Client.

(** [useState([])], [useState(empty string)], [useState(0)] *)
Definition client_start : Client.t := Client.mk [] EmptyString 0.

(** The updater of the [message_updated] listener, for one element. *)
Definition apply_update (messageId : string) (votes : Z) (voters : list string)
    (msg : Message.t) : Message.t :=
  if decide (Message.id msg = messageId)
  then {| Message.id := Message.id msg; Message.text := Message.text msg;
          Message.username := Message.username msg;
          Message.timestamp := Message.timestamp msg;
          Message.votes := votes; Message.voters := voters |}
  else msg.

(** The listeners registered in [useEffect]. *)
Definition client_on (p : Payload) (c : Client.t) : Client.t :=
  match p with
  | initial_messages ms =>
      Client.mk ms (Client.username c) (Client.userCount c)
  | username_assigned name =>
      Client.mk (Client.messages c) name (Client.userCount c)
  | user_count n =>
      Client.mk (Client.messages c) (Client.username c) n
  | new_message m =>
      Client.mk (Client.messages c ++ [m]) (Client.username c)
        (Client.userCount c)
  | message_updated messageId votes voters =>
      Client.mk (apply_update messageId votes voters <$> Client.messages c)
        (Client.username c) (Client.userCount c)
  end.

(** What the socket [sid] receives of an emit: [io.emit] reaches every
    socket, [socket.emit] only its own. *)
Definition deliver (sid : string) (e : Emit) (c : Client.t) : Client.t :=
  match e with
  | io_emit p => client_on p c
  | socket_emit sid' p => if decide (sid' = sid) then client_on p c else c
  end.

Definition client_view (sid : string) (out : list Emit) (c : Client.t)
  : Client.t :=
  foldl (fun c e => deliver sid e c) c out.

(** ** Further ghost bookkeeping *)

(** The ids broadcast as [new_message], oldest first. *)
Fixpoint broadcast_ids (out : list Emit) : list string :=
  match out with
  | [] => []
  | io_emit (new_message m) :: rest => Message.id m :: broadcast_ids rest
  | _ :: rest => broadcast_ids rest
  end.

(** The number carried by the latest [user_count] broadcast. *)
Fixpoint last_user_count (out : list Emit) (seen : option nat) : option nat :=
  match out with
  | [] => seen
  | io_emit (user_count n) :: rest => last_user_count rest (Some n)
  | _ :: rest => last_user_count rest seen
  end.

(** The registry entry of [sid] as its own events dictate: set by its
    latest [connection], cleared by a later [disconnect]. *)
Fixpoint session_of (sid : string) (tr : list Event) (cur : option User.t)
  : option User.t :=
  match tr with
  | [] => cur
  | connection sid' name now :: rest =>
      session_of sid rest
        (if decide (sid' = sid) then Some (User.mk name now) else cur)
  | disconnect sid' :: rest =>
      session_of sid rest (if decide (sid' = sid) then None else cur)
  | _ :: rest => session_of sid rest cur
  end.

(** Which payloads go to one socket and which to all. *)
Definition well_routed (e : Emit) : bool :=
  match e with
  | socket_emit _ (initial_messages _) => true
  | socket_emit _ (username_assigned _) => true
  | io_emit (user_count _) => true
  | io_emit (new_message _) => true
  | io_emit (message_updated _ _ _) => true
  | _ => false
  end.

(** The fields of a message that no handler assigns after creation. *)
Definition same_content (m m' : Message.t) : Prop :=
  Message.id m' = Message.id m ∧
  Message.text m' = Message.text m ∧
  Message.username m' = Message.username m ∧
  Message.timestamp m' = Message.timestamp m.

(** A score and a voter count that some numbers of up and down votes
    explain. *)
Definition balanced (m : Message.t) : Prop :=
  ∃ ups downs : nat,
    Message.votes m = (Z.of_nat ups - Z.of_nat downs)%Z ∧
    JsSet.size (Message.voters m) = ups + downs.

(** A session that leaves and comes back under the same socket id. *)
Definition scenario_reconnect : list Event :=
  [ connection "A" "SilentUser1" 10;
    send_message "A" (text_payload "one") "m1" 11;
    disconnect "A";
    connection "B" "ShadowGuest2" 12;
    connection "A" "HiddenSoul3" 13;
    vote_message "B" (vote_payload "m1" (JStr "up")) ].

(** A client that shows the server's state: the store is the last 100 of
    the client's list, the counter is the size of [users]. *)
Definition in_sync (name : string) (st : State) (cl : Client.t) : Prop :=
  messages st = slice_last capacity (Client.messages cl) ∧
  NoDup (Message.id <$> Client.messages cl) ∧
  Client.userCount cl = size (users st) ∧
  Client.username cl = name.

(** Two clients, a vote and a late joiner. *)
Definition scenario_clients : list Event :=
  [ connection "A" "SilentUser1" 10;
    send_message "A" (text_payload "hello") "m1" 20;
    connection "B" "ShadowGuest2" 21;
    vote_message "B" (vote_payload "m1" (JStr "up"));
    send_message "B" (text_payload "hi") "m2" 22;
    vote_message "A" (vote_payload "m2" (JStr "down"));
    disconnect "B" ].

(** The socket an inbound event belongs to. *)
Definition socket_of (e : Event) : string :=
  match e with
  | connection sid _ _ => sid
  | send_message sid _ _ _ => sid
  | vote_message sid _ => sid
  | disconnect sid => sid
  end.

(** The server state as seen when one more socket, which does nothing, is
    registered. *)
Definition with_lurker (sid : string) (user : User.t) (st st' : State) : Prop :=
  messages st' = messages st ∧
  users st' = <[sid := user]> (users st) ∧
  users st !! sid = None.

(** The snapshots handed to connecting sockets. *)
Fixpoint snapshots (out : list Emit) : list (list Message.t) :=
  match out with
  | [] => []
  | socket_emit _ (initial_messages ms) :: rest => ms :: snapshots rest
  | _ :: rest => snapshots rest
  end.

(** Two versions of a message with the same content and score, whose
    voters are the same up to order. *)
Definition same_score (m m' : Message.t) : Prop :=
  same_content m m' ∧
  Message.votes m' = Message.votes m ∧
  Message.voters m ≡ₚ Message.voters m'.

(** What a vote does to a message once the conditional is decided. *)
Definition vote_effect (delta : option Z) (userId : string) (m : Message.t)
  : Message.t :=
  match delta with
  | Some d => Message.with_vote d userId m
  | None => m
  end.

(** A message after one more counted vote: the score moved by one in the
    vote's direction, the voter added after the earlier voters. *)
Definition counted (d : Direction) (voter : string) (m : Message.t)
  : Message.t :=
  {| Message.id := Message.id m; Message.text := Message.text m;
     Message.username := Message.username m;
     Message.timestamp := Message.timestamp m;
     Message.votes := (Message.votes m + direction_delta d)%Z;
     Message.voters := Message.voters m ++ [voter] |}.

(** How a vote on a stored message is decided: by the voter's membership
    in that message's voters and by the direction, nothing else. *)
Definition decided (voteType : JsVal) (voter : string) (m : Message.t)
  : Message.t :=
  if bool_decide (voter ∈ Message.voters m) then m
  else match parse_direction voteType with
       | Some d => counted d voter m
       | None => m
       end.

(** * Verification *)

Example run_small :
  run [ connection "a" "SilentUser1" 0;
        send_message "a" (text_payload "hello") "m1" 1;
        vote_message "a" (vote_payload "m1" (JStr "up")) ] initial_state
  = Ok ({| messages := [Message.mk "m1" (JStr "hello") "SilentUser1" 1 1 ["a"]];
           users := {["a" := User.mk "SilentUser1" 0]} |},
        [ socket_emit "a" (initial_messages []);
          socket_emit "a" (username_assigned "SilentUser1");
          io_emit (user_count 1);
          io_emit (new_message (Message.mk "m1" (JStr "hello") "SilentUser1" 1 0 []));
          io_emit (message_updated "m1" 1 ["a"]) ]).
Proof. vm_compute. reflexivity. Qed.

(** A payload of [null] or [undefined] makes either handler throw. *)
Example nullish_payload_throws :
  on_send_message "A" JUndefined "m2" 30 scenario_state = Throw TypeError ∧
  on_vote_message "A" JNull scenario_state = Throw TypeError.
Proof. split; vm_compute; reflexivity. Qed.

(** ** Basic facts about the helpers *)

Lemma strict_eq_str_true s v : strict_eq_str s v = true ↔ v = JStr s.
Proof.
  destruct v; simpl; try (split; [discriminate | congruence]).
  rewrite bool_decide_eq_true. split; congruence.
Qed.

Lemma strict_eq_str_refl s : strict_eq_str s (JStr s) = true.
Proof. by apply strict_eq_str_true. Qed.

Lemma strict_eq_str_false s v : v ≠ JStr s → strict_eq_str s v = false.
Proof.
  intros Hne. destruct (strict_eq_str s v) eqn:E; [|done].
  by apply strict_eq_str_true in E.
Qed.

Lemma get_prop_ok_both data k v k' :
  get_prop data k = Ok v → ∃ v', get_prop data k' = Ok v'.
Proof. destruct data; simpl; intros; simplify_eq; eauto. Qed.

Lemma state_eta st : {| messages := messages st; users := users st |} = st.
Proof. by destruct st. Qed.

Lemma find_message_Some v ms i m :
  find_message v ms = Some (i, m) →
  ms !! i = Some m ∧ v = JStr (Message.id m) ∧
  ∀ j y, ms !! j = Some y → j < i → Message.id y ≠ Message.id m.
Proof.
  unfold find_message. intros (Hi & HP & Hfirst)%list_find_Some.
  apply Is_true_true, strict_eq_str_true in HP. split_and!; [done..|].
  intros j y Hj Hlt Heq. apply (Hfirst j y Hj Hlt).
  apply Is_true_true, strict_eq_str_true. by rewrite Heq.
Qed.

Lemma find_message_None v ms :
  find_message v ms = None ↔ ∀ m, m ∈ ms → v ≠ JStr (Message.id m).
Proof.
  unfold find_message. rewrite list_find_None, Forall_forall.
  split; intros H m Hm.
  - intros ->. apply (H m Hm). apply Is_true_true, strict_eq_str_refl.
  - intros HP%Is_true_true%strict_eq_str_true. by apply (H m Hm).
Qed.

Lemma find_message_absent mid ms :
  mid ∉ Message.id <$> ms → find_message (JStr mid) ms = None.
Proof.
  intros Hnotin. apply find_message_None. intros m Hm [= ->].
  apply Hnotin, list_elem_of_fmap. eauto.
Qed.

Lemma JsSet_has_true x s : JsSet.has x s = true ↔ x ∈ s.
Proof. unfold JsSet.has. apply bool_decide_eq_true. Qed.

Lemma JsSet_has_false x s : JsSet.has x s = false ↔ x ∉ s.
Proof. unfold JsSet.has. apply bool_decide_eq_false. Qed.

Lemma JsSet_add_new x s : x ∉ s → JsSet.add x s = s ++ [x].
Proof. intros H. unfold JsSet.add. by rewrite (proj2 (JsSet_has_false x s) H). Qed.

Lemma JsSet_add_elem x y s : y ∈ JsSet.add x s ↔ y = x ∨ y ∈ s.
Proof.
  unfold JsSet.add. destruct (JsSet.has x s) eqn:E.
  - apply JsSet_has_true in E. split; [auto|]. by intros [->|].
  - rewrite elem_of_app, list_elem_of_singleton. tauto.
Qed.

Lemma cast_vote_id vt u m : Message.id (cast_vote vt u m) = Message.id m.
Proof. unfold cast_vote. by repeat case_match. Qed.

Lemma cast_vote_voted vt u m :
  u ∈ Message.voters m → cast_vote vt u m = m.
Proof.
  intros H%JsSet_has_true. unfold cast_vote. rewrite H. simpl.
  by rewrite !andb_false_r.
Qed.

Lemma cast_vote_other vt u m :
  vt ≠ JStr "up" → vt ≠ JStr "down" → cast_vote vt u m = m.
Proof.
  intros Hup Hdown. unfold cast_vote.
  by rewrite (strict_eq_str_false _ _ Hup), (strict_eq_str_false _ _ Hdown).
Qed.

Lemma cast_vote_up u m :
  u ∉ Message.voters m →
  cast_vote (JStr "up") u m = Message.with_vote 1 u m.
Proof.
  intros H%JsSet_has_false. unfold cast_vote. by rewrite H.
Qed.

Lemma cast_vote_down u m :
  u ∉ Message.voters m →
  cast_vote (JStr "down") u m = Message.with_vote (-1) u m.
Proof.
  intros H%JsSet_has_false. unfold cast_vote. by rewrite H.
Qed.

Lemma cast_vote_voters_mono vt u m x :
  x ∈ Message.voters m → x ∈ Message.voters (cast_vote vt u m).
Proof.
  intros Hx. unfold cast_vote. repeat case_match; simpl; try done;
    apply JsSet_add_elem; auto.
Qed.

(** ** Normal forms of the handlers *)

Lemma on_send_message_unknown sid data uuid now st :
  users st !! sid = None → on_send_message sid data uuid now st = Ok (st, []).
Proof. intros H. unfold on_send_message. by rewrite H. Qed.

Lemma on_send_message_ok sid data uuid now st user txt :
  users st !! sid = Some user →
  get_prop data "text" = Ok txt →
  on_send_message sid data uuid now st =
    Ok ({| messages :=
             drop (evicted st) (messages st) ++ [fresh_message uuid txt user now];
           users := users st |},
        [ io_emit (new_message (fresh_message uuid txt user now)) ]).
Proof.
  intros Hu Ht. unfold on_send_message. rewrite Hu, Ht.
  cbn [mbind Result_bind]. fold (fresh_message uuid txt user now).
  do 3 f_equal. unfold evicted, slice_last. rewrite length_app.
  cbn [length]. case_decide as Hlen.
  - rewrite drop_app_le by (unfold capacity in *; lia).
    do 2 f_equal. lia.
  - replace (S (length (messages st)) - capacity) with 0
      by (unfold capacity in *; lia).
    done.
Qed.

Lemma on_send_message_throw sid data uuid now st user e :
  users st !! sid = Some user →
  get_prop data "text" = Throw e →
  on_send_message sid data uuid now st = Throw e.
Proof. intros Hu Ht. unfold on_send_message. by rewrite Hu, Ht. Qed.

Lemma on_vote_message_found sid data st messageId voteType i m :
  get_prop data "messageId" = Ok messageId →
  get_prop data "voteType" = Ok voteType →
  find_message messageId (messages st) = Some (i, m) →
  on_vote_message sid data st =
    Ok ({| messages := <[i := cast_vote voteType sid m]> (messages st);
           users := users st |},
        [ io_emit (message_updated (Message.id m)
                     (Message.votes (cast_vote voteType sid m))
                     (Message.voters (cast_vote voteType sid m))) ]).
Proof.
  intros Hm Hv Hf. unfold on_vote_message. rewrite Hm, Hv. simpl.
  rewrite Hf. by rewrite cast_vote_id.
Qed.

Lemma on_vote_message_missing sid data st messageId :
  get_prop data "messageId" = Ok messageId →
  find_message messageId (messages st) = None →
  on_vote_message sid data st = Ok (st, []).
Proof.
  intros Hm Hf. unfold on_vote_message.
  destruct (get_prop_ok_both _ _ _ "voteType" Hm) as [vt Hv].
  rewrite Hm, Hv. simpl. by rewrite Hf.
Qed.

Lemma on_vote_message_unchanged sid data st messageId voteType i m :
  get_prop data "messageId" = Ok messageId →
  get_prop data "voteType" = Ok voteType →
  find_message messageId (messages st) = Some (i, m) →
  cast_vote voteType sid m = m →
  on_vote_message sid data st =
    Ok (st, [ io_emit (message_updated (Message.id m) (Message.votes m)
                         (Message.voters m)) ]).
Proof.
  intros Hm Hv Hf Hc.
  rewrite (on_vote_message_found _ _ _ _ _ _ _ Hm Hv Hf), Hc.
  apply find_message_Some in Hf as (Hi & _ & _).
  by rewrite list_insert_id, state_eta.
Qed.

(** ** C4: a repeated vote *)

Lemma scenario_votes_run :
  ∃ out, run scenario_votes initial_state = Ok (scenario_state, out).
Proof. eexists. vm_compute. reflexivity. Qed.

(** C4, as stated, fails: in the state reached by the scenario above, B has
    already voted on [m1]; B's second vote leaves the state alone but a
    [message_updated] broadcast is issued all the same. *)
Lemma repeated_vote_is_broadcast :
  find_message (JStr "m1") (messages scenario_state) = Some (0, scenario_message) ∧
  "B" ∈ Message.voters scenario_message ∧
  on_vote_message "B" (vote_payload "m1" (JStr "up")) scenario_state
    = Ok (scenario_state, [ io_emit (message_updated "m1" 0 ["B"; "C"]) ]) ∧
  ¬ (∃ st', on_vote_message "B" (vote_payload "m1" (JStr "up")) scenario_state
            = Ok (st', [])).
Proof.
  split_and!.
  - vm_compute. reflexivity.
  - apply JsSet_has_true. vm_compute. reflexivity.
  - vm_compute. reflexivity.
  - intros [st' H]. vm_compute in H. discriminate H.
Qed.

(** C4 (amended): a vote by a voter already in the target message's
    [voters] changes nothing in the state, and the handler broadcasts
    [message_updated] with the unchanged score and voters. *)
Theorem repeated_vote_unchanged sid data st messageId voteType i m :
  get_prop data "messageId" = Ok messageId →
  get_prop data "voteType" = Ok voteType →
  find_message messageId (messages st) = Some (i, m) →
  sid ∈ Message.voters m →
  on_vote_message sid data st =
    Ok (st, [ io_emit (message_updated (Message.id m) (Message.votes m)
                         (Message.voters m)) ]).
Proof.
  intros Hm Hv Hf Hin.
  apply (on_vote_message_unchanged _ _ _ _ _ _ _ Hm Hv Hf).
  by apply cast_vote_voted.
Qed.

Lemma repeated_vote_unchanged_witness :
  on_vote_message "B" (vote_payload "m1" (JStr "down")) scenario_state =
    Ok (scenario_state, [ io_emit (message_updated "m1" 0 ["B"; "C"]) ]).
Proof.
  apply (repeated_vote_unchanged "B" (vote_payload "m1" (JStr "down"))
           scenario_state (JStr "m1") (JStr "down") 0 scenario_message).
  - reflexivity.
  - reflexivity.
  - vm_compute. reflexivity.
  - apply JsSet_has_true. vm_compute. reflexivity.
Defined.

(** ** C5: unvalidated payloads *)

(** C5, as stated, fails on both halves: a [send_message] whose payload has
    no [text] at all is stored and broadcast, and a vote whose [voteType]
    is not a direction is answered with a [message_updated] broadcast. *)
Lemma malformed_input_not_dropped :
  get_prop (JObj []) "text" = Ok JUndefined ∧
  on_send_message "A" (JObj []) "m2" 30 scenario_state =
    Ok ({| messages :=
             [ scenario_message;
               Message.mk "m2" JUndefined "SilentUser1" 30 0 [] ];
           users := users scenario_state |},
        [ io_emit (new_message
                     (Message.mk "m2" JUndefined "SilentUser1" 30 0 [])) ]) ∧
  on_send_message "A" (text_payload EmptyString) "m2" 30 scenario_state =
    Ok ({| messages :=
             [ scenario_message;
               Message.mk "m2" (JStr EmptyString) "SilentUser1" 30 0 [] ];
           users := users scenario_state |},
        [ io_emit (new_message
                     (Message.mk "m2" (JStr EmptyString) "SilentUser1" 30 0 [])) ]) ∧
  on_vote_message "A" (vote_payload "m1" (JStr "sideways")) scenario_state =
    Ok (scenario_state, [ io_emit (message_updated "m1" 0 ["B"; "C"]) ]).
Proof. split_and!; vm_compute; reflexivity. Qed.

(** C5 (amended): the server validates nothing.  A [send_message] from a
    registered session whose payload is an object is stored with whatever
    [text] it carries (missing or empty included) and broadcast; a vote
    whose [voteType] is neither ["up"] nor ["down"] leaves the whole state
    unchanged, and is answered with a [message_updated] broadcast of the
    unchanged score and voters when the message exists, with nothing
    otherwise. *)
Theorem malformed_input_handling :
  (∀ sid data uuid now st user txt,
     users st !! sid = Some user →
     get_prop data "text" = Ok txt →
     ∃ st',
       on_send_message sid data uuid now st =
         Ok (st', [ io_emit (new_message (fresh_message uuid txt user now)) ]) ∧
       last (messages st') = Some (fresh_message uuid txt user now) ∧
       Message.text (fresh_message uuid txt user now) = txt) ∧
  (∀ sid data st messageId voteType,
     get_prop data "messageId" = Ok messageId →
     get_prop data "voteType" = Ok voteType →
     voteType ≠ JStr "up" → voteType ≠ JStr "down" →
     on_vote_message sid data st =
       Ok (st, match find_message messageId (messages st) with
               | Some (_, m) =>
                   [ io_emit (message_updated (Message.id m) (Message.votes m)
                                (Message.voters m)) ]
               | None => []
               end)).
Proof.
  split.
  - intros sid data uuid now st user txt Hu Ht. eexists. split_and!.
    + by apply on_send_message_ok.
    + simpl. apply last_snoc.
    + done.
  - intros sid data st messageId voteType Hm Hv Hup Hdown.
    destruct (find_message messageId (messages st)) as [[i m]|] eqn:Hf.
    + apply (on_vote_message_unchanged _ _ _ _ _ _ _ Hm Hv Hf).
      by apply cast_vote_other.
    + by apply on_vote_message_missing with messageId.
Qed.

Lemma malformed_input_handling_witness :
  (∃ st',
     on_send_message "A" (JObj []) "m2" 30 scenario_state =
       Ok (st', [ io_emit (new_message
                    (fresh_message "m2" JUndefined (User.mk "SilentUser1" 10) 30)) ]) ∧
     last (messages st') =
       Some (fresh_message "m2" JUndefined (User.mk "SilentUser1" 10) 30) ∧
     Message.text (fresh_message "m2" JUndefined (User.mk "SilentUser1" 10) 30)
       = JUndefined) ∧
  on_vote_message "A" (vote_payload "m1" (JNum 7)) scenario_state =
    Ok (scenario_state,
        match find_message (JStr "m1") (messages scenario_state) with
        | Some (_, m) =>
            [ io_emit (message_updated (Message.id m) (Message.votes m)
                         (Message.voters m)) ]
        | None => []
        end).
Proof.
  split.
  - apply (proj1 malformed_input_handling "A" (JObj []) "m2" 30%Z scenario_state
             (User.mk "SilentUser1" 10) JUndefined).
    + vm_compute. reflexivity.
    + reflexivity.
  - apply (proj2 malformed_input_handling "A" (vote_payload "m1" (JNum 7))
             scenario_state (JStr "m1") (JNum 7)).
    + reflexivity.
    + reflexivity.
    + discriminate.
    + discriminate.
Defined.

(** ** C7: sending *)

(** C7: [send_message] is dropped (state unchanged, nothing emitted) exactly
    when the sending socket is not in [users]; otherwise, once the payload's
    [text] has been read, the message appended last has [votes = 0], no
    voters and the sender's registered user name, and it is broadcast. *)
Theorem send_message_unknown_session sid data uuid now st :
  (on_send_message sid data uuid now st = Ok (st, []) ↔ users st !! sid = None) ∧
  (∀ user txt,
     users st !! sid = Some user →
     get_prop data "text" = Ok txt →
     ∃ st' msg,
       on_send_message sid data uuid now st =
         Ok (st', [ io_emit (new_message msg) ]) ∧
       last (messages st') = Some msg ∧
       users st' = users st ∧
       Message.id msg = uuid ∧
       Message.text msg = txt ∧
       Message.votes msg = 0%Z ∧
       Message.voters msg = [] ∧
       Message.username msg = User.username user).
Proof.
  split.
  - split.
    + intros H. destruct (users st !! sid) as [user|] eqn:Hu; [|done].
      destruct (get_prop data "text") as [txt|e] eqn:Ht.
      * rewrite (on_send_message_ok _ _ _ _ _ _ _ Hu Ht) in H. discriminate H.
      * rewrite (on_send_message_throw _ _ _ _ _ _ _ Hu Ht) in H. discriminate H.
    + apply on_send_message_unknown.
  - intros user txt Hu Ht. eexists _, (fresh_message uuid txt user now).
    split; [by apply on_send_message_ok|].
    split_and!; try done. simpl. apply last_snoc.
Qed.

Lemma send_message_unknown_session_witness :
  on_send_message "Z" (text_payload "hello") "m2" 30 scenario_state
    = Ok (scenario_state, []) ∧
  ∃ st' msg,
    on_send_message "A" (text_payload "hello") "m2" 30 scenario_state =
      Ok (st', [ io_emit (new_message msg) ]) ∧
    last (messages st') = Some msg ∧
    users st' = users scenario_state ∧
    Message.id msg = "m2" ∧
    Message.text msg = JStr "hello" ∧
    Message.votes msg = 0%Z ∧
    Message.voters msg = [] ∧
    Message.username msg = User.username (User.mk "SilentUser1" 10).
Proof.
  split.
  - apply (proj1 (send_message_unknown_session "Z" (text_payload "hello")
                    "m2" 30%Z scenario_state)).
    vm_compute. reflexivity.
  - apply (proj2 (send_message_unknown_session "A" (text_payload "hello")
                    "m2" 30%Z scenario_state)).
    + vm_compute. reflexivity.
    + reflexivity.
Defined.

(** ** Inversion of a step, and of a run *)

Lemma step_inv e st st' out : step e st = Ok (st', out) → step_effect e st st'.
Proof.
  destruct e as [sid name now|sid data uuid now|sid data|sid]; simpl.
  - intros [= <- _]. by apply effect_none.
  - destruct (users st !! sid) as [user|] eqn:Hu.
    + destruct (get_prop data "text") as [txt|err] eqn:Ht.
      * rewrite (on_send_message_ok _ _ _ _ _ _ _ Hu Ht). intros [= <- _].
        by eapply effect_append.
      * by rewrite (on_send_message_throw _ _ _ _ _ _ _ Hu Ht).
    + rewrite (on_send_message_unknown _ _ _ _ _ Hu). intros [= <- _].
      by apply effect_none.
  - destruct (get_prop data "messageId") as [mid|err] eqn:Hm;
      [|by unfold on_vote_message; rewrite Hm].
    destruct (get_prop_ok_both _ _ _ "voteType" Hm) as [vt Hv].
    destruct (find_message mid (messages st)) as [[i m]|] eqn:Hf.
    + rewrite (on_vote_message_found _ _ _ _ _ _ _ Hm Hv Hf). intros [= <- _].
      by eapply effect_vote.
    + rewrite (on_vote_message_missing _ _ _ _ Hm Hf). intros [= <- _].
      by apply effect_none.
  - intros [= <- _]. by apply effect_none.
Qed.

Lemma run_cons_inv e tr st st' out :
  run (e :: tr) st = Ok (st', out) →
  ∃ st1 out1 out2,
    step e st = Ok (st1, out1) ∧ run tr st1 = Ok (st', out2) ∧
    out = out1 ++ out2.
Proof.
  simpl. destruct (step e st) as [[st1 out1]|] eqn:He; [|done]. simpl.
  destruct (run tr st1) as [[st2 out2]|] eqn:Hr; [|done]. simpl.
  intros [= <- <-]. by exists st1, out1, out2.
Qed.

Lemma run_app tr1 tr2 st st1 st2 out1 out2 :
  run tr1 st = Ok (st1, out1) →
  run tr2 st1 = Ok (st2, out2) →
  run (tr1 ++ tr2) st = Ok (st2, out1 ++ out2).
Proof.
  revert st out1. induction tr1 as [|e tr1 IH]; intros st out1 H1 H2.
  - simpl in H1. injection H1 as <- <-. done.
  - apply run_cons_inv in H1 as (st' & o1 & o2 & He & Hr & ->).
    rewrite <- app_comm_cons. cbn [run]. rewrite He. cbn.
    rewrite (IH _ _ Hr H2). cbn. by rewrite app_assoc.
Qed.

Lemma run_singleton e st st' out :
  step e st = Ok (st', out) → run [e] st = Ok (st', out ++ []).
Proof. intros H. cbn [run]. by rewrite H. Qed.

Lemma uuids_app tr1 tr2 : uuids (tr1 ++ tr2) = uuids tr1 ++ uuids tr2.
Proof.
  induction tr1 as [|[] tr1 IH]; simpl; by rewrite ?IH.
Qed.

(** ** Identifiers in the store *)

Lemma elem_of_drop {A} (n : nat) (l : list A) (x : A) : x ∈ drop n l → x ∈ l.
Proof. apply subseteq_drop. Qed.

Lemma ids_vote (ms : list Message.t) i m vt sid :
  ms !! i = Some m →
  Message.id <$> <[i := cast_vote vt sid m]> ms = Message.id <$> ms.
Proof.
  intros Hi. rewrite list_fmap_insert, cast_vote_id.
  apply list_insert_id. by rewrite list_lookup_fmap, Hi.
Qed.

Lemma step_ids e st st' out :
  step e st = Ok (st', out) →
  ids st' = ids st ∨
  ∃ uuid, uuids [e] = [uuid] ∧ ids st' = drop (evicted st) (ids st) ++ [uuid].
Proof.
  intros H. destruct (step_inv _ _ _ _ H)
    as [Heq|sid data uuid now user txt -> Hu Ht Heq
       |sid data mid vt i m -> Hm Hv Hf Heq]; unfold ids; rewrite Heq.
  - by left.
  - right. exists uuid. split; [done|].
    by rewrite fmap_app, fmap_drop.
  - left. apply find_message_Some in Hf as (Hi & _). by apply ids_vote.
Qed.

Lemma step_ids_incl e st st' out x :
  step e st = Ok (st', out) → x ∈ ids st' → x ∈ ids st ∨ x ∈ uuids [e].
Proof.
  intros H Hx. destruct (step_ids _ _ _ _ H) as [Heq|(u & Hu & Heq)];
    rewrite Heq in Hx; [by left|].
  apply elem_of_app in Hx as [Hx|Hx].
  - left. by eapply elem_of_drop.
  - right. by rewrite Hu.
Qed.

Lemma step_ids_NoDup e st st' out :
  step e st = Ok (st', out) →
  NoDup (ids st) →
  (∀ u, u ∈ uuids [e] → u ∉ ids st) →
  NoDup (ids st').
Proof.
  intros H Hnd Hfresh. destruct (step_ids _ _ _ _ H) as [Heq|(u & Hu & Heq)];
    rewrite Heq; [done|].
  apply NoDup_app. split_and!.
  - rewrite <- (take_drop (evicted st) (ids st)) in Hnd.
    by apply NoDup_app in Hnd as (_ & _ & Hnd).
  - intros x Hx ->%list_elem_of_singleton.
    apply (Hfresh u); [rewrite Hu; by left|]. by eapply elem_of_drop.
  - apply NoDup_singleton.
Qed.

Lemma run_ids_incl tr st st' out x :
  run tr st = Ok (st', out) → x ∈ ids st' → x ∈ ids st ∨ x ∈ uuids tr.
Proof.
  revert st out. induction tr as [|e tr IH]; intros st out H Hx.
  - simpl in H. injection H as <- _. by left.
  - apply run_cons_inv in H as (st1 & o1 & o2 & He & Hr & _).
    destruct (IH _ _ Hr Hx) as [Hx1|Hx1].
    + destruct (step_ids_incl _ _ _ _ _ He Hx1) as [?|Hu]; [by left|].
      right. change (e :: tr) with ([e] ++ tr). rewrite uuids_app.
      apply elem_of_app. by left.
    + right. change (e :: tr) with ([e] ++ tr). rewrite uuids_app.
      apply elem_of_app. by right.
Qed.

Lemma run_ids_NoDup tr st st' out :
  run tr st = Ok (st', out) →
  NoDup (ids st) →
  NoDup (uuids tr) →
  (∀ u, u ∈ uuids tr → u ∉ ids st) →
  NoDup (ids st').
Proof.
  revert st out. induction tr as [|e tr IH]; intros st out H Hnd Hu Hfresh.
  - simpl in H. by injection H as <- _.
  - apply run_cons_inv in H as (st1 & o1 & o2 & He & Hr & _).
    change (e :: tr) with ([e] ++ tr) in Hu, Hfresh. rewrite uuids_app in Hu, Hfresh.
    apply NoDup_app in Hu as (Hu1 & Hdisj & Hu2).
    apply (IH _ _ Hr); [|done|].
    + apply (step_ids_NoDup _ _ _ _ He Hnd).
      intros u Hin. apply Hfresh, elem_of_app. by left.
    + intros u Hin Hin'.
      destruct (step_ids_incl _ _ _ _ _ He Hin') as [Hold|Hnew].
      * apply (Hfresh u); [apply elem_of_app; by right|done].
      * by apply (Hdisj u).
Qed.

Lemma reachable_ids tr st out :
  run tr initial_state = Ok (st, out) →
  NoDup (uuids tr) →
  NoDup (ids st) ∧ ∀ x, x ∈ ids st → x ∈ uuids tr.
Proof.
  intros H Hu. split.
  - apply (run_ids_NoDup _ _ _ _ H); [apply NoDup_nil_2|done|].
    intros u _ Hin. by apply elem_of_nil in Hin.
  - intros x Hx. destruct (run_ids_incl _ _ _ _ _ H Hx) as [Hin|]; [|done].
    by apply elem_of_nil in Hin.
Qed.

(** ** C3: the store is bounded *)

Lemma step_length e st st' out :
  step e st = Ok (st', out) →
  length (messages st) ≤ capacity → length (messages st') ≤ capacity.
Proof.
  intros H Hlen. destruct (step_inv _ _ _ _ H)
    as [Heq|sid data uuid now user txt -> Hu Ht Heq
       |sid data mid vt i m -> Hm Hv Hf Heq]; rewrite Heq.
  - done.
  - rewrite length_app, length_drop. unfold evicted. simpl.
    unfold capacity in *. lia.
  - by rewrite length_insert.
Qed.

Lemma run_length tr st st' out :
  run tr st = Ok (st', out) →
  length (messages st) ≤ capacity → length (messages st') ≤ capacity.
Proof.
  revert st out. induction tr as [|e tr IH]; intros st out H Hlen.
  - simpl in H. by injection H as <- _.
  - apply run_cons_inv in H as (st1 & o1 & o2 & He & Hr & _).
    eauto using step_length.
Qed.

Example flood_101 :
  run (flood 101) initial_state = Ok (flood_state 101, flood_output 101) ∧
  length (messages (flood_state 101)) = 100 ∧
  Message.id <$> head (messages (flood_state 101)) = Some "m1" ∧
  Message.id <$> last (messages (flood_state 101)) = Some "m100".
Proof. vm_compute. done. Qed.

(** C3: along every trace the store holds at most [capacity] (100)
    messages; an append to a full store yields the previous list without
    its entry at index 0 and with the new message last; and, identifiers
    being unique, nothing with the evicted entry's id is left in the
    store, so its score and voters are gone with it. *)
Theorem store_bounded_fifo :
  (∀ tr st out,
     run tr initial_state = Ok (st, out) → length (messages st) ≤ capacity) ∧
  (∀ sid data uuid now st user txt,
     users st !! sid = Some user →
     get_prop data "text" = Ok txt →
     length (messages st) = capacity →
     ∃ oldest rest,
       messages st = oldest :: rest ∧
       on_send_message sid data uuid now st =
         Ok ({| messages := rest ++ [fresh_message uuid txt user now];
                users := users st |},
             [ io_emit (new_message (fresh_message uuid txt user now)) ])) ∧
  (∀ tr st out uuid now user txt oldest rest,
     NoDup (uuids tr ++ [uuid]) →
     run tr initial_state = Ok (st, out) →
     messages st = oldest :: rest →
     find_message (JStr (Message.id oldest))
       (rest ++ [fresh_message uuid txt user now]) = None).
Proof.
  split_and!.
  - intros tr st out H. apply (run_length _ _ _ _ H). simpl. lia.
  - intros sid data uuid now st user txt Hu Ht Hlen.
    destruct (messages st) as [|oldest rest] eqn:Hms;
      [by unfold capacity in Hlen|].
    exists oldest, rest. split; [done|].
    rewrite (on_send_message_ok _ _ _ _ _ _ _ Hu Ht).
    unfold evicted. rewrite Hms, Hlen.
    by replace (S capacity - capacity) with 1 by lia.
  - intros tr st out uuid now user txt oldest rest Hnd Hrun Hms.
    apply find_message_absent.
    destruct (reachable_ids _ _ _ Hrun) as [Hnd0 Hincl].
    { by apply NoDup_app in Hnd as (? & _). }
    unfold ids in *. rewrite Hms, fmap_cons in Hnd0, Hincl.
    apply NoDup_cons in Hnd0 as [Hnotin _].
    rewrite fmap_app.
    intros [Hin|Hin%list_elem_of_singleton]%elem_of_app; [done|].
    apply NoDup_app in Hnd as (_ & Hdisj & _).
    apply (Hdisj (Message.id oldest)).
    + apply Hincl. by left.
    + rewrite Hin. by left.
Qed.

Lemma store_bounded_fifo_witness :
  length (messages (flood_state 100)) ≤ capacity ∧
  (∃ oldest rest,
     messages (flood_state 100) = oldest :: rest ∧
     on_send_message "A" (text_payload "late") "fresh" 500 (flood_state 100) =
       Ok ({| messages :=
                rest ++ [fresh_message "fresh" (JStr "late")
                           (User.mk "SilentUser1" 0) 500];
              users := users (flood_state 100) |},
           [ io_emit (new_message
                        (fresh_message "fresh" (JStr "late")
                           (User.mk "SilentUser1" 0) 500)) ])) ∧
  find_message (JStr "m0")
    (tail (messages (flood_state 100)) ++
     [fresh_message "fresh" (JStr "late") (User.mk "SilentUser1" 0) 500]) = None.
Proof.
  split_and!.
  - apply (proj1 store_bounded_fifo (flood 100) _ (flood_output 100)).
    vm_compute. reflexivity.
  - apply (proj1 (proj2 store_bounded_fifo)).
    + vm_compute. reflexivity.
    + reflexivity.
    + vm_compute. reflexivity.
  - apply (proj2 (proj2 store_bounded_fifo) (flood 100) (flood_state 100)
             (flood_output 100) "fresh" 500%Z (User.mk "SilentUser1" 0)
             (JStr "late")
             (Message.mk "m0" (JStr "x") "SilentUser1" 0 0 [])
             (tail (messages (flood_state 100)))).
    + apply (bool_decide_unpack _). vm_compute. exact I.
    + vm_compute. reflexivity.
    + vm_compute. reflexivity.
Defined.

(** ** C6: votes on unknown messages *)

(** C6: a vote whose [messageId] matches no stored message returns at the
    [find] guard: same state, nothing emitted.  And once a message that was
    stored is no longer in the store, no later trace brings its id back, so
    every later vote on it is dropped in that way. *)
Theorem vote_unknown_message :
  (∀ sid data st messageId,
     get_prop data "messageId" = Ok messageId →
     find_message messageId (messages st) = None →
     on_vote_message sid data st = Ok (st, [])) ∧
  (∀ tr1 tr2 tr3 st1 out1 st2 out2 st3 out3 m sid data,
     NoDup (uuids (tr1 ++ tr2 ++ tr3)) →
     run tr1 initial_state = Ok (st1, out1) →
     m ∈ messages st1 →
     run tr2 st1 = Ok (st2, out2) →
     Message.id m ∉ ids st2 →
     run tr3 st2 = Ok (st3, out3) →
     get_prop data "messageId" = Ok (JStr (Message.id m)) →
     on_vote_message sid data st3 = Ok (st3, [])).
Proof.
  split.
  - apply on_vote_message_missing.
  - intros tr1 tr2 tr3 st1 out1 st2 out2 st3 out3 m sid data
      Hnd Hr1 Hm Hr2 Hgone Hr3 Hmid.
    apply (on_vote_message_missing _ _ _ _ Hmid), find_message_absent.
    fold (ids st3). intros Hin.
    destruct (run_ids_incl _ _ _ _ _ Hr3 Hin) as [Hold|Hnew]; [done|].
    rewrite !uuids_app in Hnd.
    apply NoDup_app in Hnd as (Hnd1 & Hdisj & _).
    apply (Hdisj (Message.id m)).
    + apply (reachable_ids _ _ _ Hr1 Hnd1), list_elem_of_fmap. eauto.
    + apply elem_of_app. by right.
Qed.

Lemma vote_unknown_message_witness :
  on_vote_message "B" (vote_payload "nope" (JStr "up")) scenario_state
    = Ok (scenario_state, []) ∧
  on_vote_message "B" (vote_payload "m0" (JStr "up"))
      (state_after after_flood (flood_state 101))
    = Ok (state_after after_flood (flood_state 101), []).
Proof.
  split.
  - apply (proj1 vote_unknown_message "B" (vote_payload "nope" (JStr "up"))
             scenario_state (JStr "nope")).
    + reflexivity.
    + vm_compute. reflexivity.
  - apply (proj2 vote_unknown_message (flood 1) (flood_from 1 100) after_flood
             (flood_state 1) (flood_output 1)
             (flood_state 101) (output_after (flood_from 1 100) (flood_state 1))
             (state_after after_flood (flood_state 101))
             (output_after after_flood (flood_state 101))
             (Message.mk "m0" (JStr "x") "SilentUser1" 0 0 [])
             "B" (vote_payload "m0" (JStr "up"))).
    + apply (bool_decide_unpack _). vm_compute. exact I.
    + vm_compute. reflexivity.
    + vm_compute. left.
    + vm_compute. reflexivity.
    + apply (bool_decide_unpack _). vm_compute. exact I.
    + vm_compute. reflexivity.
    + reflexivity.
Defined.

(** ** C9: the user count *)

Lemma step_users e st st' out :
  step e st = Ok (st', out) →
  users st' =
    match e with
    | connection sid name now => <[sid := User.mk name now]> (users st)
    | disconnect sid => delete sid (users st)
    | _ => users st
    end.
Proof.
  destruct e as [sid name now|sid data uuid now|sid data|sid]; simpl.
  - by intros [= <- _].
  - unfold on_send_message. destruct (users st !! sid); [|by intros [= <- _]].
    destruct (get_prop data "text"); [|done]. by intros [= <- _].
  - unfold on_vote_message.
    destruct (get_prop data "messageId"); [|done].
    destruct (get_prop data "voteType"); [|done]. simpl.
    destruct (find_message _ _) as [[]|]; by intros [= <- _].
  - by intros [= <- _].
Qed.

Lemma surviving_connect tr sid u (m : gmap string User.t) :
  m !! sid = None →
  size (surviving tr (<[sid := u]> m)) =
    (if bool_decide (sid ∈ disconnect_ids tr) then 0 else 1) +
    size (surviving tr m).
Proof.
  intros Hnone. unfold surviving. case_bool_decide as Hin.
  - rewrite map_filter_insert_False by (simpl; tauto).
    by rewrite delete_id.
  - rewrite map_filter_insert_True by done.
    rewrite map_size_insert_None; [done|].
    apply map_lookup_filter_None. by left.
Qed.

Lemma surviving_disconnect tr sid (m : gmap string User.t) :
  surviving tr (delete sid m) = surviving (disconnect sid :: tr) m.
Proof.
  unfold surviving. apply map_filter_strong_ext_1. intros i x. simpl.
  rewrite lookup_delete_Some, not_elem_of_cons.
  intuition congruence.
Qed.

Lemma run_count tr st st' out :
  run tr st = Ok (st', out) →
  NoDup (connection_ids tr) →
  (∀ s, s ∈ connection_ids tr → users st !! s = None) →
  size (users st') = size (surviving tr (users st)) + unmatched tr.
Proof.
  revert st out. induction tr as [|e tr IH]; intros st out H Hnd Hfresh.
  - simpl in H. injection H as <- _. unfold surviving. simpl.
    rewrite map_filter_id; [lia|]. intros i x _. apply not_elem_of_nil.
  - apply run_cons_inv in H as (st1 & o1 & o2 & He & Hr & _).
    pose proof (step_users _ _ _ _ He) as Hu.
    destruct e as [sid name now|sid data uuid now|sid data|sid];
      simpl in Hnd, Hfresh; cbn [unmatched].
    + apply NoDup_cons in Hnd as [Hsid Hnd].
      rewrite (IH _ _ Hr Hnd), Hu.
      * rewrite surviving_connect by (apply Hfresh; by left).
        unfold surviving. simpl. lia.
      * intros s Hs. rewrite Hu, lookup_insert_ne by (by intros ->).
        apply Hfresh. by right.
    + rewrite (IH _ _ Hr Hnd), Hu; [done|]. intros s Hs. rewrite Hu. auto.
    + rewrite (IH _ _ Hr Hnd), Hu; [done|]. intros s Hs. rewrite Hu. auto.
    + rewrite (IH _ _ Hr Hnd), Hu.
      * by rewrite surviving_disconnect.
      * intros s Hs. rewrite Hu. apply lookup_delete_None. auto.
Qed.

(** C9: socket ids being unique per connection, the size of [users] after a
    trace is the number of connections not yet matched by a [disconnect] of
    the same id; and [disconnect] for an id that is not in [users] leaves
    the whole state, [users] and its size included, as it was. *)
Theorem user_count_matches :
  (∀ tr st out,
     NoDup (connection_ids tr) →
     run tr initial_state = Ok (st, out) →
     size (users st) = unmatched tr) ∧
  (∀ sid st,
     users st !! sid = None →
     on_disconnect sid st = Ok (st, [ io_emit (user_count (size (users st))) ])).
Proof.
  split.
  - intros tr st out Hnd Hrun.
    rewrite (run_count _ _ _ _ Hrun Hnd) by (intros; apply lookup_empty).
    unfold surviving. simpl. by rewrite map_filter_empty, map_size_empty.
  - intros sid st Hnone. unfold on_disconnect.
    by rewrite (delete_id _ _ Hnone), state_eta.
Qed.

Lemma user_count_matches_witness :
  size (users (state_after scenario_sessions initial_state)) = 2 ∧
  on_disconnect "Z" scenario_state =
    Ok (scenario_state, [ io_emit (user_count 3) ]).
Proof.
  split.
  - change 2 with (unmatched scenario_sessions).
    apply (proj1 user_count_matches scenario_sessions _
             (output_after scenario_sessions initial_state)).
    + apply (bool_decide_unpack _). vm_compute. exact I.
    + vm_compute. reflexivity.
  - change 3 with (size (users scenario_state)).
    apply (proj2 user_count_matches "Z" scenario_state).
    vm_compute. reflexivity.
Defined.

(** ** C10: voting on one's own message *)

Lemma cast_vote_direction d u m :
  u ∉ Message.voters m →
  cast_vote (JStr (direction_name d)) u m
    = Message.with_vote (direction_delta d) u m.
Proof. destruct d; [apply cast_vote_up | apply cast_vote_down]. Qed.

Lemma find_message_last ms m :
  Message.id m ∉ Message.id <$> ms →
  find_message (JStr (Message.id m)) (ms ++ [m]) = Some (length ms, m).
Proof.
  intros Hfresh. unfold find_message.
  rewrite list_find_app_r by (by apply find_message_absent).
  simpl. rewrite decide_True by (apply Is_true_true, strict_eq_str_refl).
  done.
Qed.

Example self_vote_run :
  run (scenario_votes ++ [ vote_message "A" (vote_payload "m1" (JStr "up")) ])
      initial_state
  = Ok ({| messages :=
             [ Message.mk "m1" (JStr "hello") "SilentUser1" 20 1 ["B"; "C"; "A"] ];
           users := users scenario_state |},
        output_after scenario_votes initial_state ++
        [ io_emit (message_updated "m1" 1 ["B"; "C"; "A"]) ]).
Proof. vm_compute. reflexivity. Qed.

(** ** The handler against the specification's ledger *)

Lemma lookup_message_find mid ms :
  lookup_message mid ms = snd <$> find_message (JStr mid) ms.
Proof.
  unfold lookup_message, find_message.
  induction ms as [|m ms IH]; [done|]. cbn [List.find list_find].
  simpl strict_eq_str. destruct (String.eqb_spec (Message.id m) mid) as [Heq|Hne].
  - rewrite decide_True; [done|]. by apply Is_true_true, bool_decide_eq_true.
  - rewrite decide_False.
    + rewrite IH. by destruct (list_find _ ms) as [[]|].
    + intros H%Is_true_true%bool_decide_eq_true. done.
Qed.

Lemma parse_direction_Some v d :
  parse_direction v = Some d ↔ v = JStr (direction_name d).
Proof.
  destruct v as [| | | |s|]; simpl; try (split; [done|by destruct d]).
  destruct (String.eqb_spec s "up") as [->|Hup].
  { split; [by intros [= <-]|by destruct d]. }
  destruct (String.eqb_spec s "down") as [->|Hdown].
  { split; [by intros [= <-]|by destruct d]. }
  split; [done|]. destruct d; simpl; congruence.
Qed.

Lemma parse_direction_None v :
  parse_direction v = None → v ≠ JStr "up" ∧ v ≠ JStr "down".
Proof.
  intros H. split; intros ->; discriminate H.
Qed.

(** The handler accepts exactly the votes the specification accepts. *)
Lemma accepted_vote_Some st sid data r :
  accepted_vote st sid data = Some r →
  ∃ i m,
    r = mkVote (Message.id m) sid (direction r) ∧
    get_prop data "messageId" = Ok (JStr (Message.id m)) ∧
    get_prop data "voteType" = Ok (JStr (direction_name (direction r))) ∧
    find_message (JStr (Message.id m)) (messages st) = Some (i, m) ∧
    sid ∉ Message.voters m.
Proof.
  unfold accepted_vote. destruct data as [| | | | |props]; try done.
  destruct (own_prop "messageId" props) as [[| | | |mid|]|] eqn:Hmid; try done.
  destruct (own_prop "voteType" props) as [vt|] eqn:Hvt; [|done].
  rewrite lookup_message_find.
  destruct (find_message (JStr mid) (messages st)) as [[i m]|] eqn:Hf; [|done].
  simpl. destruct (parse_direction vt) as [d|] eqn:Hd; [|done].
  case_bool_decide as Hin; [done|]. intros [= <-].
  apply parse_direction_Some in Hd as ->.
  pose proof (find_message_Some _ _ _ _ Hf) as (_ & [= ->] & _).
  exists i, m. simpl. by rewrite Hmid, Hvt.
Qed.

Lemma accepted_vote_None st sid data st' out :
  accepted_vote st sid data = None →
  on_vote_message sid data st = Ok (st', out) →
  st' = st.
Proof.
  intros Hacc Hstep.
  destruct (get_prop data "messageId") as [mid|] eqn:Hm;
    [|by unfold on_vote_message in Hstep; rewrite Hm in Hstep].
  destruct (get_prop_ok_both _ _ _ "voteType" Hm) as [vt Hv].
  destruct (find_message mid (messages st)) as [[i m]|] eqn:Hf; cycle 1.
  { rewrite (on_vote_message_missing _ _ _ _ Hm Hf) in Hstep. congruence. }
  assert (cast_vote vt sid m = m) as Hcast; cycle 1.
  { rewrite (on_vote_message_unchanged _ _ _ _ _ _ _ Hm Hv Hf Hcast) in Hstep.
    congruence. }
  pose proof (find_message_Some _ _ _ _ Hf) as (_ & -> & _).
  unfold accepted_vote in Hacc. destruct data as [| | | | |props]; try done.
  simpl in Hm, Hv.
  destruct (own_prop "messageId" props) as [mid'|]; [|done].
  simpl in Hm. injection Hm as ->.
  rewrite lookup_message_find, Hf in Hacc. simpl in Hacc.
  destruct (own_prop "voteType" props) as [vt'|]; simpl in Hv.
  - injection Hv as ->. destruct (parse_direction vt) eqn:Hd.
    + case_bool_decide; [|done]. by apply cast_vote_voted.
    + apply parse_direction_None in Hd as [??]. by apply cast_vote_other.
  - injection Hv as <-. by apply cast_vote_other.
Qed.

(** ** C1: scores and voters match the ledger *)

Lemma votes_on_app mid l1 l2 :
  votes_on mid (l1 ++ l2) = votes_on mid l1 ++ votes_on mid l2.
Proof. apply filter_app. Qed.

Lemma votes_on_absent mid log :
  mid ∉ on_message <$> log → votes_on mid log = [].
Proof.
  intros Hnotin. unfold votes_on.
  induction log as [|r log IH]; [done|].
  rewrite fmap_cons, not_elem_of_cons in Hnotin. destruct Hnotin as [Hne Hrest].
  rewrite filter_cons_False by congruence. auto.
Qed.

Lemma count_direction_snoc d log r :
  count_direction d (log ++ [r]) =
    count_direction d log + (if decide (direction r = d) then 1 else 0).
Proof.
  unfold count_direction. rewrite filter_app, length_app. f_equal.
  rewrite filter_cons, filter_nil. by case_decide.
Qed.

Lemma tallied_other log r m :
  on_message r ≠ Message.id m → tallied log m → tallied (log ++ [r]) m.
Proof.
  intros Hne [Hv Hs]. unfold tallied. rewrite votes_on_app.
  unfold votes_on at 2 4 6. rewrite filter_cons_False, filter_nil by done.
  by rewrite app_nil_r.
Qed.

Lemma tallied_vote log m sid d :
  sid ∉ Message.voters m →
  tallied log m →
  tallied (log ++ [mkVote (Message.id m) sid d])
    (Message.with_vote (direction_delta d) sid m).
Proof.
  intros Hnew [Hv Hs]. unfold tallied. cbn [Message.id Message.with_vote
    Message.votes Message.voters]. rewrite votes_on_app.
  unfold votes_on at 2 4 6. rewrite filter_cons_True, filter_nil by done.
  rewrite !count_direction_snoc, fmap_app, <- Hs, Hv. cbn [direction].
  split; [|by rewrite JsSet_add_new].
  destruct d; simpl; lia.
Qed.

Lemma unique_id (ms : list Message.t) i j m m' :
  NoDup (Message.id <$> ms) →
  ms !! i = Some m → ms !! j = Some m' → Message.id m = Message.id m' → i = j.
Proof.
  intros Hnd Hi Hj Heq.
  apply (NoDup_lookup _ i j (Message.id m) Hnd); rewrite list_lookup_fmap.
  - by rewrite Hi.
  - by rewrite Hj, Heq.
Qed.

Lemma recorded_ids e st r : r ∈ recorded e st → on_message r ∈ ids st.
Proof.
  destruct e as [| |sid data|]; simpl; try (by intros ?%elem_of_nil).
  destruct (accepted_vote st sid data) as [r'|] eqn:Hacc;
    [|by intros ?%elem_of_nil].
  intros ->%list_elem_of_singleton.
  apply accepted_vote_Some in Hacc as (i & m & -> & _ & _ & Hf & _).
  apply find_message_Some in Hf as (Hi & _). simpl.
  apply list_elem_of_fmap. exists m. split; [done|].
  by eapply list_elem_of_lookup_2.
Qed.

Lemma step_tallied e st st' out log :
  step e st = Ok (st', out) →
  NoDup (ids st) →
  (∀ u, u ∈ uuids [e] → u ∉ on_message <$> log) →
  (∀ m, m ∈ messages st → tallied log m) →
  ∀ m, m ∈ messages st' → tallied (log ++ recorded e st) m.
Proof.
  intros Hstep Hnd Hfresh Hinv.
  destruct e as [sid name now|sid data uuid now|sid data|sid].
  - simpl in *. injection Hstep as <- _. intros m Hm.
    rewrite app_nil_r. by apply Hinv.
  - cbn [recorded]. intros m Hm. rewrite app_nil_r.
    destruct (step_inv _ _ _ _ Hstep)
      as [Heq|? ? ? ? user txt He Hu Ht Heq|? ? ? ? ? ? He]; [| |done];
      rewrite Heq in Hm.
    + by apply Hinv.
    + injection He as <- <- <- <-.
      apply elem_of_app in Hm as [Hm%elem_of_drop|Hm%list_elem_of_singleton].
      * by apply Hinv.
      * subst m. unfold tallied. simpl.
        rewrite votes_on_absent by (apply Hfresh; simpl; by left). done.
  - cbn [recorded step] in *.
    destruct (accepted_vote st sid data) as [r|] eqn:Hacc.
    + apply accepted_vote_Some in Hacc as (i & m0 & Hr & Hm & Hv & Hf & Hnew).
      rewrite (on_vote_message_found _ _ _ _ _ _ _ Hm Hv Hf) in Hstep.
      injection Hstep as <- _. cbn [messages].
      rewrite cast_vote_direction by done.
      pose proof (find_message_Some _ _ _ _ Hf) as (Hi & _).
      intros m [j Hj]%list_elem_of_lookup.
      destruct (decide (j = i)) as [->|Hne].
      * rewrite list_lookup_insert_eq in Hj by (by eapply lookup_lt_Some).
        injection Hj as <-. rewrite Hr. apply tallied_vote; [done|].
        apply Hinv. by eapply list_elem_of_lookup_2.
      * rewrite list_lookup_insert_ne in Hj by done.
        apply tallied_other.
        -- rewrite Hr. simpl. intros Heq. apply Hne.
           by apply (unique_id (messages st) j i m m0).
        -- apply Hinv. by eapply list_elem_of_lookup_2.
    + rewrite (accepted_vote_None _ _ _ _ _ Hacc Hstep). intros m Hm.
      rewrite app_nil_r. by apply Hinv.
  - simpl in *. injection Hstep as <- _. intros m Hm.
    rewrite app_nil_r. by apply Hinv.
Qed.

Lemma run_tallied tr st st' out log :
  run tr st = Ok (st', out) →
  NoDup (ids st) →
  NoDup (uuids tr) →
  (∀ u, u ∈ uuids tr → (u ∉ ids st) ∧ (u ∉ on_message <$> log)) →
  (∀ m, m ∈ messages st → tallied log m) →
  ∀ m, m ∈ messages st' → tallied (log ++ history tr st) m.
Proof.
  revert st out log. induction tr as [|e tr IH];
    intros st out log Hrun Hnd Hu Hfresh Hinv.
  - simpl in *. injection Hrun as <- _. intros m Hm.
    rewrite app_nil_r. by apply Hinv.
  - apply run_cons_inv in Hrun as (st1 & o1 & o2 & He & Hr & _).
    cbn [history]. rewrite He. cbn [fst]. rewrite app_assoc.
    change (e :: tr) with ([e] ++ tr) in Hu, Hfresh.
    rewrite uuids_app in Hu, Hfresh.
    apply NoDup_app in Hu as (_ & Hdisj & Hu).
    apply (IH _ _ _ Hr).
    + apply (step_ids_NoDup _ _ _ _ He Hnd).
      intros u Hin. apply Hfresh, elem_of_app. by left.
    + done.
    + intros u Hin. destruct (Hfresh u) as [Hids Hlog];
        [apply elem_of_app; by right|]. split.
      * intros Hin'.
        destruct (step_ids_incl _ _ _ _ _ He Hin') as [?|Hnew]; [done|].
        by apply (Hdisj u).
      * rewrite fmap_app. intros [?|Hrec]%elem_of_app; [done|].
        apply list_elem_of_fmap in Hrec as (r & -> & Hrec).
        by apply recorded_ids in Hrec.
    + apply (step_tallied _ _ _ _ _ He Hnd); [|done].
      intros u Hin. apply Hfresh, elem_of_app. by left.
Qed.

(** C1: identifiers from [uuidv4()] being unique, every message in the
    store after any trace has a score equal to the number of accepted
    up-votes on it minus the number of accepted down-votes, and its
    [voters] lists exactly the voters of those accepted votes, so that its
    size is their number. *)
Theorem score_matches_ledger tr st out m :
  NoDup (uuids tr) →
  run tr initial_state = Ok (st, out) →
  m ∈ messages st →
  Message.votes m =
    (Z.of_nat (count_direction Up
                 (votes_on (Message.id m) (history tr initial_state))) -
     Z.of_nat (count_direction Down
                 (votes_on (Message.id m) (history tr initial_state))))%Z ∧
  JsSet.size (Message.voters m) =
    length (votes_on (Message.id m) (history tr initial_state)) ∧
  JsSet.to_array (Message.voters m) =
    by_voter <$> votes_on (Message.id m) (history tr initial_state).
Proof.
  intros Hu Hrun Hm.
  destruct (run_tallied tr initial_state st out [] Hrun) with (m := m)
    as [Hv Hs]; try done.
  - apply NoDup_nil_2.
  - intros u _. split; apply not_elem_of_nil.
  - by intros ? ?%elem_of_nil.
  - simpl in Hv, Hs. split_and!; [done| |done].
    unfold JsSet.size. by rewrite Hs, length_fmap.
Qed.

Lemma score_matches_ledger_witness :
  Message.votes scenario_message = (1 - 1)%Z ∧
  JsSet.size (Message.voters scenario_message) = 2 ∧
  JsSet.to_array (Message.voters scenario_message) = ["B"; "C"].
Proof.
  change (1 - 1)%Z with
    (Z.of_nat (count_direction Up
                 (votes_on (Message.id scenario_message)
                    (history scenario_votes initial_state))) -
     Z.of_nat (count_direction Down
                 (votes_on (Message.id scenario_message)
                    (history scenario_votes initial_state))))%Z.
  change 2 with
    (length (votes_on (Message.id scenario_message)
               (history scenario_votes initial_state))).
  change ["B"; "C"] with
    (by_voter <$> votes_on (Message.id scenario_message)
                    (history scenario_votes initial_state)).
  apply (score_matches_ledger scenario_votes scenario_state
           (output_after scenario_votes initial_state) scenario_message).
  - apply (bool_decide_unpack _). vm_compute. exact I.
  - vm_compute. reflexivity.
  - vm_compute. left.
Defined.

(** ** C2: one counted vote per voter and message *)

Lemma step_voters_mono e st st' out m' :
  step e st = Ok (st', out) →
  (∀ u, u ∈ uuids [e] → u ∉ ids st) →
  m' ∈ messages st' →
  Message.id m' ∈ ids st →
  ∃ m, m ∈ messages st ∧ Message.id m = Message.id m' ∧
       ∀ x, x ∈ Message.voters m → x ∈ Message.voters m'.
Proof.
  intros Hstep Hfresh Hm' Hid.
  destruct (step_inv _ _ _ _ Hstep)
    as [Heq|sid data uuid now user txt -> Hu Ht Heq
       |sid data mid vt i m0 -> Hm Hv Hf Heq]; rewrite Heq in Hm'.
  - by exists m'.
  - apply elem_of_app in Hm' as [Hm'%elem_of_drop|Hm'%list_elem_of_singleton].
    + by exists m'.
    + subst m'. exfalso. apply (Hfresh uuid); [simpl; by left|done].
  - apply find_message_Some in Hf as (Hi & _).
    apply list_elem_of_lookup in Hm' as [j Hj].
    destruct (decide (j = i)) as [->|Hne].
    + rewrite list_lookup_insert_eq in Hj by (by eapply lookup_lt_Some).
      injection Hj as <-. exists m0. split_and!.
      * by eapply list_elem_of_lookup_2.
      * by rewrite cast_vote_id.
      * intros x. apply cast_vote_voters_mono.
    + rewrite list_lookup_insert_ne in Hj by done.
      exists m'. split_and!; [by eapply list_elem_of_lookup_2|done..].
Qed.

Lemma run_voters_mono tr st st' out m' :
  run tr st = Ok (st', out) →
  NoDup (uuids tr) →
  (∀ u, u ∈ uuids tr → u ∉ ids st) →
  m' ∈ messages st' →
  Message.id m' ∈ ids st →
  ∃ m, m ∈ messages st ∧ Message.id m = Message.id m' ∧
       ∀ x, x ∈ Message.voters m → x ∈ Message.voters m'.
Proof.
  revert st out. induction tr as [|e tr IH]; intros st out Hrun Hu Hfresh Hm' Hid.
  - simpl in Hrun. injection Hrun as <- _. by exists m'.
  - apply run_cons_inv in Hrun as (st1 & o1 & o2 & He & Hr & _).
    change (e :: tr) with ([e] ++ tr) in Hu, Hfresh.
    rewrite uuids_app in Hu, Hfresh.
    apply NoDup_app in Hu as (_ & Hdisj & Hu).
    assert (∀ u, u ∈ uuids tr → u ∉ ids st1) as Hfresh1.
    { intros u Hin Hin'.
      destruct (step_ids_incl _ _ _ _ _ He Hin') as [Hold|Hnew].
      - apply (Hfresh u); [apply elem_of_app; by right|done].
      - by apply (Hdisj u). }
    assert (Message.id m' ∈ ids st1) as Hid1.
    { apply list_elem_of_fmap_2 with (f := Message.id) in Hm' as Hin.
      destruct (run_ids_incl _ _ _ _ _ Hr Hin) as [?|Hnew]; [done|].
      exfalso. apply (Hfresh (Message.id m')); [apply elem_of_app; by right|done]. }
    destruct (IH _ _ Hr Hu Hfresh1 Hm' Hid1) as (m1 & Hm1 & Heq1 & Hsub1).
    destruct (step_voters_mono e st st1 o1 m1 He) as (m & Hm & Heq & Hsub);
      [|done|by rewrite Heq1|].
    { intros u Hin. apply Hfresh, elem_of_app. by left. }
    exists m. split_and!; [done|congruence|auto].
Qed.

Lemma unique_message (ms : list Message.t) m m' :
  NoDup (Message.id <$> ms) →
  m ∈ ms → m' ∈ ms → Message.id m = Message.id m' → m = m'.
Proof.
  intros Hnd [i Hi]%list_elem_of_lookup [j Hj]%list_elem_of_lookup Heq.
  assert (i = j) as -> by eauto using unique_id. congruence.
Qed.

(** C2: identifiers being unique, once a vote by a socket id on a message
    has been accepted, every later [vote_message] by the same id on the
    same message, whatever its [voteType], leaves the whole state, hence
    that message's score and voters, as it was. *)
Theorem second_vote_is_noop
    tr1 tr2 sid data r st1 out1 st2 out2 st3 out3 data' :
  NoDup (uuids (tr1 ++ tr2)) →
  run tr1 initial_state = Ok (st1, out1) →
  accepted_vote st1 sid data = Some r →
  on_vote_message sid data st1 = Ok (st2, out2) →
  run tr2 st2 = Ok (st3, out3) →
  get_prop data' "messageId" = Ok (JStr (on_message r)) →
  ∃ out, on_vote_message sid data' st3 = Ok (st3, out).
Proof.
  intros Hnd Hr1 Hacc Hvote Hr2 Hmid.
  rewrite uuids_app in Hnd. apply NoDup_app in Hnd as (Hnd1 & Hdisj & Hnd2).
  destruct (get_prop_ok_both _ _ _ "voteType" Hmid) as [vt' Hvt'].
  destruct (find_message (JStr (on_message r)) (messages st3))
    as [[i3 m3]|] eqn:Hf3; cycle 1.
  { exists []. by apply on_vote_message_missing with (JStr (on_message r)). }
  eexists. apply (on_vote_message_unchanged _ _ _ _ _ _ _ Hmid Hvt' Hf3).
  apply cast_vote_voted.
  (* the message as it was right after the accepted vote *)
  apply accepted_vote_Some in Hacc as (i & m & Hr & Hm & Hv & Hf & Hnew).
  rewrite (on_vote_message_found _ _ _ _ _ _ _ Hm Hv Hf) in Hvote.
  injection Hvote as <- _.
  pose proof (find_message_Some _ _ _ _ Hf) as (Hi & _).
  pose proof (find_message_Some _ _ _ _ Hf3) as (Hi3 & [= Hid3] & _).
  destruct (reachable_ids _ _ _ Hr1 Hnd1) as [Hnd_ids Hincl].
  set (st2 := {| messages := <[i := cast_vote (JStr (direction_name (direction r)))
                                     sid m]> (messages st1);
                 users := users st1 |}) in *.
  assert (ids st2 = ids st1) as Hids2 by (by apply ids_vote).
  assert (cast_vote (JStr (direction_name (direction r))) sid m ∈ messages st2)
    as Hin2.
  { apply list_elem_of_lookup. exists i. simpl.
    apply list_lookup_insert_eq. by eapply lookup_lt_Some. }
  assert (on_message r = Message.id m) as Hrm by (by rewrite Hr).
  destruct (run_voters_mono tr2 st2 st3 out3 m3 Hr2 Hnd2)
    as (m2 & Hm2 & Heq2 & Hsub).
  - intros u Hin. rewrite Hids2. intros Hin'. apply (Hdisj u); auto.
  - by eapply list_elem_of_lookup_2.
  - rewrite Hids2, <- Hid3, Hrm. apply list_elem_of_fmap. exists m.
    split; [done|]. by eapply list_elem_of_lookup_2.
  - apply Hsub.
    assert (m2 = cast_vote (JStr (direction_name (direction r))) sid m) as ->.
    { apply (unique_message (messages st2)); [by fold (ids st2); rewrite Hids2|done..|].
      rewrite cast_vote_id. congruence. }
    rewrite cast_vote_direction by done. simpl.
    apply JsSet_add_elem. by left.
Qed.

Lemma second_vote_is_noop_witness :
  ∃ out,
    on_vote_message "B" (vote_payload "m1" (JStr "down"))
        (state_after scenario_votes initial_state)
      = Ok (state_after scenario_votes initial_state, out).
Proof.
  apply (second_vote_is_noop
           (take 4 scenario_votes)
           [ vote_message "C" (vote_payload "m1" (JStr "down")) ]
           "B" (vote_payload "m1" (JStr "up")) (mkVote "m1" "B" Up)
           (state_after (take 4 scenario_votes) initial_state)
           (output_after (take 4 scenario_votes) initial_state)
           (state_after (take 5 scenario_votes) initial_state)
           [ io_emit (message_updated "m1" 1 ["B"]) ]
           (state_after scenario_votes initial_state)
           [ io_emit (message_updated "m1" 0 ["B"; "C"]) ]
           (vote_payload "m1" (JStr "down"))).
  - apply (bool_decide_unpack _). vm_compute. exact I.
  - vm_compute. reflexivity.
  - vm_compute. reflexivity.
  - vm_compute. reflexivity.
  - vm_compute. reflexivity.
  - reflexivity.
Defined.


(** ** The name generator *)

Lemma string_length_app (a b : string) :
  String.length (a +:+ b) = String.length a + String.length b.
Proof. induction a as [|c a IH]; simpl; [done|by rewrite IH]. Qed.

Lemma has_digit_app (a b : string) :
  has_digit (a +:+ b) = has_digit a || has_digit b.
Proof.
  induction a as [|c a IH]; simpl; [done|]. by rewrite IH, orb_assoc.
Qed.

Lemma letters_prefix_app (w d : string) :
  has_digit w = false → letters_prefix (w +:+ d) = w +:+ letters_prefix d.
Proof.
  induction w as [|c w IH]; simpl; [done|].
  intros [Hc Hw]%orb_false_iff. by rewrite Hc, IH.
Qed.

Lemma letters_prefix_digit (d : string) :
  starts_with_digit d = true → letters_prefix d = EmptyString.
Proof. destruct d as [|c d]; simpl; [done|]. by intros ->. Qed.

Lemma words_checked :
  Forall (fun w => has_digit w = false ∧ 4 ≤ String.length w ≤ 10) adjectives ∧
  Forall (fun w => has_digit w = false ∧ 4 ≤ String.length w ≤ 10) nouns.
Proof. split; apply (bool_decide_unpack _); vm_compute; exact I. Qed.

Lemma numbers_checked k :
  k < 999 →
  starts_with_digit (pretty (k + 1)) = true ∧
  1 ≤ String.length (pretty (k + 1)) ≤ 3.
Proof.
  assert (Forall (fun k => starts_with_digit (pretty (k + 1)) = true ∧
                           1 ≤ String.length (pretty (k + 1)) ≤ 3)
            (seq 0 999)) as H
    by (apply (bool_decide_unpack _); vm_compute; exact I).
  intros Hk. apply (proj1 (Forall_seq _ _ _) H). lia.
Qed.

Lemma words_distinct i j i' j' :
  i < 18 → j < 18 → i' < 18 → j' < 18 →
  template_elem adjectives i +:+ template_elem nouns j =
    template_elem adjectives i' +:+ template_elem nouns j' →
  i = i' ∧ j = j'.
Proof.
  assert (Forall (fun i => Forall (fun j => Forall (fun i' => Forall (fun j' =>
            template_elem adjectives i +:+ template_elem nouns j =
              template_elem adjectives i' +:+ template_elem nouns j' →
            i = i' ∧ j = j') (seq 0 18)) (seq 0 18)) (seq 0 18)) (seq 0 18)) as H
    by (apply (bool_decide_unpack _); vm_compute; exact I).
  intros Hi Hj Hi' Hj'.
  pose proof (proj1 (Forall_seq _ _ _) H i ltac:(lia)) as H1.
  pose proof (proj1 (Forall_seq _ _ _) H1 j ltac:(lia)) as H2.
  pose proof (proj1 (Forall_seq _ _ _) H2 i' ltac:(lia)) as H3.
  exact (proj1 (Forall_seq _ _ _) H3 j' ltac:(lia)).
Qed.

Lemma template_elem_lookup (l : list string) i :
  i < length l → ∃ w, l !! i = Some w ∧ template_elem l i = w.
Proof.
  intros Hi. destruct (lookup_lt_is_Some_2 l i Hi) as [w Hw].
  exists w. unfold template_elem. by rewrite Hw.
Qed.

Lemma string_app_empty_r (a : string) : a +:+ EmptyString = a.
Proof.
  induction a as [|c a IH]; [done|].
  change (String c (a +:+ EmptyString) = String c a). by rewrite IH.
Qed.

Lemma generated_name_letters i j k :
  i < length adjectives → j < length nouns → k < 999 →
  letters_prefix (generateAnonymousName i j k) =
    template_elem adjectives i +:+ template_elem nouns j.
Proof.
  intros Hi Hj Hk.
  destruct (template_elem_lookup _ _ Hi) as (adj & Hadj & Eadj).
  destruct (template_elem_lookup _ _ Hj) as (noun & Hnoun & Enoun).
  destruct words_checked as [Ha Hn].
  destruct (Forall_lookup_1 _ _ _ _ Ha Hadj) as [Hda _].
  destruct (Forall_lookup_1 _ _ _ _ Hn Hnoun) as [Hdn _].
  destruct (numbers_checked k Hk) as [Hdig _].
  unfold generateAnonymousName. rewrite Eadj, Enoun.
  rewrite !letters_prefix_app by done.
  by rewrite letters_prefix_digit, string_app_empty_r.
Qed.

(** X1: when the three draws are in range, the generated name is an
    adjective of the list, then a noun of the list, then the decimal
    numeral of a number from 1 to 999; the part before the first digit is
    the adjective and the noun, and the whole name has between 9 and 23
    characters. *)
Theorem generated_name_pattern i j k :
  i < length adjectives → j < length nouns → k < 999 →
  ∃ adj noun n,
    adjectives !! i = Some adj ∧ nouns !! j = Some noun ∧
    1 ≤ n ≤ 999 ∧
    generateAnonymousName i j k = adj +:+ noun +:+ pretty n ∧
    letters_prefix (generateAnonymousName i j k) = adj +:+ noun ∧
    9 ≤ String.length (generateAnonymousName i j k) ≤ 23.
Proof.
  intros Hi Hj Hk.
  pose proof (generated_name_letters i j k Hi Hj Hk) as Hletters.
  destruct (template_elem_lookup _ _ Hi) as (adj & Hadj & Eadj).
  destruct (template_elem_lookup _ _ Hj) as (noun & Hnoun & Enoun).
  destruct words_checked as [Ha Hn].
  destruct (Forall_lookup_1 _ _ _ _ Ha Hadj) as [_ Hla].
  destruct (Forall_lookup_1 _ _ _ _ Hn Hnoun) as [_ Hln].
  destruct (numbers_checked k Hk) as [_ Hlen].
  exists adj, noun, (k + 1). rewrite Hletters. unfold generateAnonymousName.
  rewrite Eadj, Enoun. split_and!; try done; try lia.
  - rewrite !string_length_app. lia.
  - rewrite !string_length_app. lia.
Qed.

Lemma generated_name_pattern_witness :
  ∃ adj noun n,
    adjectives !! 5 = Some adj ∧ nouns !! 4 = Some noun ∧
    1 ≤ n ≤ 999 ∧
    generateAnonymousName 5 4 41 = adj +:+ noun +:+ pretty n ∧
    letters_prefix (generateAnonymousName 5 4 41) = adj +:+ noun ∧
    9 ≤ String.length (generateAnonymousName 5 4 41) ≤ 23.
Proof.
  apply (generated_name_pattern 5 4 41); vm_compute; lia.
Defined.

Example generated_name_example :
  generateAnonymousName 5 4 41 = "GhostGuest42" ∧
  generateAnonymousName 18 0 0 = "undefinedUser1".
Proof. split; vm_compute; reflexivity. Qed.

(** X2: in-range draws that differ give names that differ: two generated
    names coincide only when the adjective, the noun and the number all
    coincide. *)
Theorem generated_name_injective i j k i' j' k' :
  i < length adjectives → j < length nouns → k < 999 →
  i' < length adjectives → j' < length nouns → k' < 999 →
  (i, j, k) ≠ (i', j', k') →
  generateAnonymousName i j k ≠ generateAnonymousName i' j' k'.
Proof.
  intros Hi Hj Hk Hi' Hj' Hk' Hne Heq. apply Hne.
  pose proof (generated_name_letters i j k Hi Hj Hk) as H1.
  pose proof (generated_name_letters i' j' k' Hi' Hj' Hk') as H2.
  rewrite Heq, H2 in H1. symmetry in H1.
  apply words_distinct in H1 as [-> ->]; [|done..].
  unfold generateAnonymousName in Heq.
  apply String.app_inj, String.app_inj, pretty_nat_inj in Heq.
  do 2 f_equal. lia.
Qed.

Lemma generated_name_injective_witness :
  generateAnonymousName 5 4 41 ≠ generateAnonymousName 4 5 41.
Proof.
  apply (generated_name_injective 5 4 41 4 5 41);
    [vm_compute; lia..|discriminate].
Defined.

(** ** The registry along a trace *)

Lemma session_of_step e st st' out sid :
  step e st = Ok (st', out) →
  ∀ rest, session_of sid (e :: rest) (users st !! sid)
          = session_of sid rest (users st' !! sid).
Proof.
  intros He rest. rewrite (step_users _ _ _ _ He).
  destruct e as [s name now|s data uuid now|s data|s]; cbn [session_of];
    try done.
  - destruct (decide (s = sid)) as [->|Hne].
    + by rewrite lookup_insert_eq.
    + by rewrite lookup_insert_ne.
  - destruct (decide (s = sid)) as [->|Hne].
    + by rewrite lookup_delete_eq.
    + by rewrite lookup_delete_ne.
Qed.

Lemma run_session_of tr st0 st out sid :
  run tr st0 = Ok (st, out) →
  users st !! sid = session_of sid tr (users st0 !! sid).
Proof.
  revert st0 out. induction tr as [|e tr IH]; intros st0 out Hrun.
  - simpl in Hrun. by injection Hrun as <- _.
  - apply run_cons_inv in Hrun as (st1 & o1 & o2 & He & Hr & _).
    rewrite (session_of_step _ _ _ _ sid He). by apply (IH _ _ Hr).
Qed.

(** X3: after any trace, the registry entry of a socket id is the one set
    by its latest [connection] unless a [disconnect] of that id came later,
    whatever else happened in between; and a [send_message] from that id is
    dropped exactly when there is no such entry, and is otherwise published
    under the name given at that latest connection. *)
Theorem registry_follows_sessions tr st0 st out sid :
  run tr st0 = Ok (st, out) →
  users st !! sid = session_of sid tr (users st0 !! sid) ∧
  ∀ data uuid now,
    on_send_message sid data uuid now st =
      match session_of sid tr (users st0 !! sid), get_prop data "text" with
      | None, _ => Ok (st, [])
      | Some user, Ok txt =>
          Ok ({| messages := drop (evicted st) (messages st) ++
                             [Message.mk uuid txt (User.username user) now 0 []];
                 users := users st |},
              [ io_emit (new_message
                           (Message.mk uuid txt (User.username user) now 0 [])) ])
      | Some _, Throw e => Throw e
      end.
Proof.
  intros Hrun. pose proof (run_session_of _ _ _ _ sid Hrun) as Hu.
  split; [done|]. intros data uuid now. rewrite <- Hu.
  destruct (users st !! sid) as [user|] eqn:Hsid.
  - destruct (get_prop data "text") as [txt|e] eqn:Ht.
    + by rewrite (on_send_message_ok _ _ _ _ _ _ _ Hsid Ht).
    + by rewrite (on_send_message_throw _ _ _ _ _ _ _ Hsid Ht).
  - by apply on_send_message_unknown.
Qed.

Lemma registry_follows_sessions_witness :
  users (state_after scenario_reconnect initial_state) !! "A"
    = Some (User.mk "HiddenSoul3" 13) ∧
  users (state_after (take 3 scenario_reconnect) initial_state) !! "A" = None.
Proof.
  split.
  - apply (registry_follows_sessions scenario_reconnect initial_state
             (state_after scenario_reconnect initial_state)
             (output_after scenario_reconnect initial_state) "A").
    vm_compute. reflexivity.
  - apply (registry_follows_sessions (take 3 scenario_reconnect) initial_state
             (state_after (take 3 scenario_reconnect) initial_state)
             (output_after (take 3 scenario_reconnect) initial_state) "A").
    vm_compute. reflexivity.
Defined.

(** ** The count that clients are told *)

Lemma last_user_count_app o1 o2 seen :
  last_user_count (o1 ++ o2) seen = last_user_count o2 (last_user_count o1 seen).
Proof.
  revert seen. induction o1 as [|e o1 IH]; intros seen; [done|].
  destruct e as [s p|p]; [apply IH|]. destruct p; apply IH.
Qed.

Lemma step_last_user_count e st st' out seen :
  step e st = Ok (st', out) →
  (∀ n, seen = Some n → n = size (users st)) →
  (∀ n, last_user_count out seen = Some n → n = size (users st')) ∧
  (last_user_count out seen = None → seen = None ∧ users st' = users st).
Proof.
  intros He Hseen.
  assert (last_user_count out seen = seen ∧ users st' = users st ∨
          last_user_count out seen = Some (size (users st')))
    as [[Hl Hu]|Hl]; rewrite ?Hl, ?Hu;
    [|by split; [|intros ->]|by split; [intros k [= <-]|]].
  destruct e as [s name now|s data uuid now|s data|s]; simpl in He.
  - injection He as <- <-. by right.
  - left. unfold on_send_message in He. destruct (users st !! s).
    + destruct (get_prop data "text"); [|done]. by injection He as <- <-.
    + by injection He as <- <-.
  - left. unfold on_vote_message in He.
    destruct (get_prop data "messageId"); [|done].
    destruct (get_prop data "voteType"); [|done]. simpl in He.
    destruct (find_message _ _) as [[]|]; by injection He as <- <-.
  - injection He as <- <-. by right.
Qed.

Lemma run_last_user_count tr st0 st out seen :
  run tr st0 = Ok (st, out) →
  (∀ n, seen = Some n → n = size (users st0)) →
  (∀ n, last_user_count out seen = Some n → n = size (users st)) ∧
  (last_user_count out seen = None → seen = None ∧ users st = users st0).
Proof.
  revert st0 out seen. induction tr as [|e tr IH]; intros st0 out seen Hrun Hseen.
  - simpl in Hrun. injection Hrun as <- <-. simpl. split; [done|by intros ->].
  - apply run_cons_inv in Hrun as (st1 & o1 & o2 & He & Hr & ->).
    rewrite last_user_count_app.
    destruct (step_last_user_count _ _ _ _ seen He Hseen) as (H1 & H2).
    destruct (IH _ _ (last_user_count o1 seen) Hr H1) as [H3 H4].
    split; [done|]. intros Hnone. destruct (H4 Hnone) as [Hn1 ->].
    by apply H2.
Qed.

(** X4: whatever the trace, the number in the latest [user_count]
    broadcast is the current size of [users]; and if no [user_count] was
    broadcast, [users] is what it was at the start. *)
Theorem user_count_broadcast_current tr st0 st out :
  run tr st0 = Ok (st, out) →
  (∀ n, last_user_count out None = Some n → n = size (users st)) ∧
  (last_user_count out None = None → users st = users st0).
Proof.
  intros Hrun.
  destruct (run_last_user_count _ _ _ _ None Hrun) as [H1 H2]; [done|].
  split; [done|]. intros H. by destruct (H2 H).
Qed.

Lemma user_count_broadcast_current_witness :
  (∀ n, last_user_count (output_after scenario_reconnect initial_state) None
          = Some n →
        n = size (users (state_after scenario_reconnect initial_state))) ∧
  last_user_count (output_after scenario_reconnect initial_state) None = Some 2.
Proof.
  split.
  - apply (user_count_broadcast_current scenario_reconnect initial_state
             (state_after scenario_reconnect initial_state)
             (output_after scenario_reconnect initial_state)).
    vm_compute. reflexivity.
  - vm_compute. reflexivity.
Defined.

(** ** Who receives what *)

Lemma step_routing e st st' out :
  step e st = Ok (st', out) →
  Forall (fun x => well_routed x = true) out ∧
  ∀ sid p, socket_emit sid p ∈ out → sid ∈ connection_ids [e].
Proof.
  intros He.
  destruct e as [s name now|s data uuid now|s data|s]; simpl in He.
  - injection He as _ <-. split; [by repeat constructor|].
    intros sid p Hin. simpl.
    repeat (apply elem_of_cons in Hin as [Hin|Hin];
            [try (injection Hin as -> _; by left); done|]).
    by apply elem_of_nil in Hin.
  - unfold on_send_message in He. destruct (users st !! s).
    + destruct (get_prop data "text"); [|done]. injection He as _ <-.
      split; [by repeat constructor|].
      intros sid p [Hin|Hin%elem_of_nil]%elem_of_cons; done.
    + injection He as _ <-. split; [constructor|by intros ?? ?%elem_of_nil].
  - unfold on_vote_message in He.
    destruct (get_prop data "messageId"); [|done].
    destruct (get_prop data "voteType"); [|done]. simpl in He.
    destruct (find_message _ _) as [[]|]; injection He as _ <-.
    + split; [by repeat constructor|].
      intros sid p [Hin|Hin%elem_of_nil]%elem_of_cons; done.
    + split; [constructor|by intros ?? ?%elem_of_nil].
  - injection He as _ <-. split; [by repeat constructor|].
    intros sid p [Hin|Hin%elem_of_nil]%elem_of_cons; done.
Qed.

Lemma connection_ids_app tr1 tr2 :
  connection_ids (tr1 ++ tr2) = connection_ids tr1 ++ connection_ids tr2.
Proof. induction tr1 as [|[] tr1 IH]; simpl; by rewrite ?IH. Qed.

(** X5: on every trace, the only payloads sent to a single socket are the
    snapshot and the assigned name, and only to a socket whose [connection]
    is in the trace; user counts, new messages and vote updates are always
    sent to all sockets, never to one. *)
Theorem emits_well_routed tr st0 st out :
  run tr st0 = Ok (st, out) →
  Forall (fun x => well_routed x = true) out ∧
  ∀ sid p, socket_emit sid p ∈ out → sid ∈ connection_ids tr.
Proof.
  revert st0 out. induction tr as [|e tr IH]; intros st0 out Hrun.
  - simpl in Hrun. injection Hrun as _ <-.
    split; [constructor|by intros ?? ?%elem_of_nil].
  - apply run_cons_inv in Hrun as (st1 & o1 & o2 & He & Hr & ->).
    destruct (step_routing _ _ _ _ He) as [H1 H2].
    destruct (IH _ _ Hr) as [H3 H4]. split.
    + by apply Forall_app.
    + intros sid p Hin. change (e :: tr) with ([e] ++ tr).
      rewrite connection_ids_app. apply elem_of_app.
      apply elem_of_app in Hin as [Hin|Hin]; eauto.
Qed.

Lemma emits_well_routed_witness :
  Forall (fun x => well_routed x = true)
    (output_after scenario_reconnect initial_state) ∧
  ∀ sid p,
    socket_emit sid p ∈ output_after scenario_reconnect initial_state →
    sid ∈ connection_ids scenario_reconnect.
Proof.
  apply (emits_well_routed scenario_reconnect initial_state
           (state_after scenario_reconnect initial_state)).
  vm_compute. reflexivity.
Defined.

(** ** The store as a window on what was broadcast *)

Lemma slice_last_all {A} (n : nat) (l : list A) :
  length l ≤ n → slice_last n l = l.
Proof.
  intros H. unfold slice_last. by replace (length l - n) with 0 by lia.
Qed.

Lemma slice_last_length {A} (n : nat) (l : list A) :
  length (slice_last n l) = length l `min` n.
Proof. unfold slice_last. rewrite length_drop. lia. Qed.

Lemma slice_last_push {A} (n : nat) (l : list A) (x : A) :
  0 < n →
  slice_last n (l ++ [x]) =
    drop (S (length (slice_last n l)) - n) (slice_last n l) ++ [x].
Proof.
  intros Hn. rewrite slice_last_length. unfold slice_last.
  rewrite length_app, drop_drop. cbn [length].
  rewrite drop_app_le by lia. do 2 f_equal. lia.
Qed.

Lemma broadcast_ids_app o1 o2 :
  broadcast_ids (o1 ++ o2) = broadcast_ids o1 ++ broadcast_ids o2.
Proof.
  induction o1 as [|e o1 IH]; [done|].
  destruct e as [s p|p]; [apply IH|].
  destruct p; simpl; by rewrite ?IH.
Qed.

Lemma step_broadcast_ids e st st' out :
  step e st = Ok (st', out) →
  ids st' = ids st ∧ broadcast_ids out = [] ∨
  ∃ u, broadcast_ids out = [u] ∧ ids st' = drop (evicted st) (ids st) ++ [u].
Proof.
  destruct e as [s name now|s data uuid now|s data|s]; simpl.
  - intros [= <- <-]. by left.
  - destruct (users st !! s) as [user|] eqn:Hu.
    + destruct (get_prop data "text") as [txt|err] eqn:Ht.
      * rewrite (on_send_message_ok _ _ _ _ _ _ _ Hu Ht). intros [= <- <-].
        right. exists uuid. split; [done|]. unfold ids. simpl.
        by rewrite fmap_app, fmap_drop.
      * by rewrite (on_send_message_throw _ _ _ _ _ _ _ Hu Ht).
    + rewrite (on_send_message_unknown _ _ _ _ _ Hu). intros [= <- <-]. by left.
  - destruct (get_prop data "messageId") as [mid|err] eqn:Hm;
      [|by unfold on_vote_message; rewrite Hm].
    destruct (get_prop_ok_both _ _ _ "voteType" Hm) as [vt Hv].
    destruct (find_message mid (messages st)) as [[i m]|] eqn:Hf.
    + rewrite (on_vote_message_found _ _ _ _ _ _ _ Hm Hv Hf). intros [= <- <-].
      left. split; [|done]. apply find_message_Some in Hf as (Hi & _).
      by apply ids_vote.
    + rewrite (on_vote_message_missing _ _ _ _ Hm Hf). intros [= <- <-].
      by left.
  - intros [= <- <-]. by left.
Qed.

Lemma run_broadcast_window tr st0 st out (seen : list string) :
  run tr st0 = Ok (st, out) →
  ids st0 = slice_last capacity seen →
  ids st = slice_last capacity (seen ++ broadcast_ids out).
Proof.
  revert st0 out seen. induction tr as [|e tr IH]; intros st0 out seen Hrun Hwin.
  - simpl in Hrun. injection Hrun as <- <-. simpl. by rewrite app_nil_r.
  - apply run_cons_inv in Hrun as (st1 & o1 & o2 & He & Hr & ->).
    rewrite broadcast_ids_app, app_assoc. apply (IH _ _ _ Hr).
    destruct (step_broadcast_ids _ _ _ _ He) as [[-> ->]|(u & -> & ->)].
    + by rewrite app_nil_r.
    + rewrite slice_last_push by (unfold capacity; lia).
      rewrite <- Hwin. unfold evicted, ids. by rewrite length_fmap.
Qed.

(** X6: the stored ids are a sliding window on the [new_message]
    broadcasts.  Starting from a store within capacity, after any trace the
    ids in the store are, in order, the last 100 of the ids stored at the
    start followed by the ids broadcast as [new_message]; so messages are
    never reordered, none is lost from the middle, and [/health] reports
    the smaller of that count and 100. *)
Theorem store_is_broadcast_window tr st0 st out :
  length (messages st0) ≤ capacity →
  run tr st0 = Ok (st, out) →
  ids st = slice_last capacity (ids st0 ++ broadcast_ids out) ∧
  Health.messages (health st) =
    (length (messages st0) + length (broadcast_ids out)) `min` capacity.
Proof.
  intros Hlen Hrun.
  assert (ids st = slice_last capacity (ids st0 ++ broadcast_ids out)) as Hwin.
  { apply (run_broadcast_window _ _ _ _ _ Hrun).
    symmetry. apply slice_last_all. unfold ids. by rewrite length_fmap. }
  split; [done|]. simpl.
  apply (f_equal length) in Hwin. unfold ids in Hwin.
  rewrite slice_last_length, length_app, !length_fmap in Hwin. done.
Qed.

Lemma store_is_broadcast_window_witness :
  ids (flood_state 101) =
    slice_last capacity (ids initial_state ++ broadcast_ids (flood_output 101)) ∧
  Health.messages (health (flood_state 101)) =
    (length (messages initial_state) + length (broadcast_ids (flood_output 101)))
      `min` capacity.
Proof.
  apply (store_is_broadcast_window (flood 101) initial_state).
  - vm_compute. lia.
  - vm_compute. reflexivity.
Defined.

(** ** Score against number of voters *)

Lemma cast_vote_cases vt u m :
  cast_vote vt u m = m ∨
  ((u ∉ Message.voters m) ∧
   ∃ d, cast_vote vt u m = Message.with_vote (direction_delta d) u m).
Proof.
  unfold cast_vote. destruct (JsSet.has u (Message.voters m)) eqn:Hhas.
  - left. by rewrite !andb_false_r.
  - apply JsSet_has_false in Hhas. rewrite !andb_true_r.
    destruct (strict_eq_str "up" vt); [right; split; [done|by exists Up]|].
    destruct (strict_eq_str "down" vt); [right; split; [done|by exists Down]|].
    by left.
Qed.


Lemma balanced_cast_vote vt u m : balanced m → balanced (cast_vote vt u m).
Proof.
  intros (ups & downs & Hv & Hs).
  destruct (cast_vote_cases vt u m) as [->|(Hnew & d & ->)];
    [by exists ups, downs|].
  unfold balanced, JsSet.size in *. simpl.
  rewrite JsSet_add_new, length_app by done. simpl.
  destruct d; [exists (S ups), downs|exists ups, (S downs)]; simpl; lia.
Qed.

Lemma step_balanced e st st' out :
  step e st = Ok (st', out) →
  Forall balanced (messages st) → Forall balanced (messages st').
Proof.
  intros He Hall. destruct (step_inv _ _ _ _ He)
    as [Heq|sid data uuid now user txt _ Hu Ht Heq
       |sid data mid vt i m _ Hm Hv Hf Heq]; rewrite Heq.
  - done.
  - apply Forall_app. split; [by apply Forall_drop|].
    apply Forall_singleton. by exists 0, 0.
  - apply find_message_Some in Hf as (Hi & _).
    apply Forall_insert; [done|].
    apply balanced_cast_vote. by eapply Forall_lookup_1.
Qed.

Lemma run_balanced tr st0 st out :
  run tr st0 = Ok (st, out) →
  Forall balanced (messages st0) → Forall balanced (messages st).
Proof.
  revert st0 out. induction tr as [|e tr IH]; intros st0 out Hrun Hall.
  - simpl in Hrun. by injection Hrun as <- _.
  - apply run_cons_inv in Hrun as (st1 & o1 & o2 & He & Hr & _).
    eauto using step_balanced.
Qed.

(** X7: whatever the trace (identifiers may even repeat), a stored
    message's score never exceeds its number of voters in absolute value,
    and score and number of voters have the same parity: their sum is
    even. *)
Theorem score_bounded_by_voters tr st out m :
  run tr initial_state = Ok (st, out) →
  m ∈ messages st →
  (Z.abs (Message.votes m) ≤ Z.of_nat (JsSet.size (Message.voters m)))%Z ∧
  Z.even (Message.votes m + Z.of_nat (JsSet.size (Message.voters m))) = true.
Proof.
  intros Hrun Hm.
  assert (balanced m) as (ups & downs & Hv & Hs).
  { apply (proj1 (Forall_forall _ _) (run_balanced _ _ _ _ Hrun (Forall_nil_2 _))).
    done. }
  rewrite Hv, Hs. split; [lia|].
  apply Z.even_spec. exists (Z.of_nat ups). lia.
Qed.

Lemma score_bounded_by_voters_witness :
  (Z.abs (Message.votes scenario_message)
     ≤ Z.of_nat (JsSet.size (Message.voters scenario_message)))%Z ∧
  Z.even (Message.votes scenario_message +
          Z.of_nat (JsSet.size (Message.voters scenario_message))) = true.
Proof.
  apply (score_bounded_by_voters scenario_votes scenario_state
           (output_after scenario_votes initial_state)).
  - vm_compute. reflexivity.
  - vm_compute. left.
Defined.

(** ** What a stored message keeps *)

Lemma cast_vote_content vt u m :
  same_content m (cast_vote vt u m) ∧
  Message.voters m `prefix_of` Message.voters (cast_vote vt u m).
Proof.
  destruct (cast_vote_cases vt u m) as [->|(Hnew & d & ->)].
  - by repeat split.
  - repeat split. simpl. rewrite JsSet_add_new by done.
    by apply prefix_app_r.
Qed.

Lemma step_content_kept e st st' out m' :
  step e st = Ok (st', out) →
  (∀ u, u ∈ uuids [e] → u ∉ ids st) →
  m' ∈ messages st' →
  Message.id m' ∈ ids st →
  ∃ m, m ∈ messages st ∧ same_content m m' ∧
       Message.voters m `prefix_of` Message.voters m'.
Proof.
  intros Hstep Hfresh Hm' Hid.
  destruct (step_inv _ _ _ _ Hstep)
    as [Heq|sid data uuid now user txt -> Hu Ht Heq
       |sid data mid vt i m0 -> Hm Hv Hf Heq]; rewrite Heq in Hm'.
  - exists m'. by repeat split.
  - apply elem_of_app in Hm' as [Hm'%elem_of_drop|Hm'%list_elem_of_singleton].
    + exists m'. by repeat split.
    + subst m'. exfalso. apply (Hfresh uuid); [simpl; by left|done].
  - apply find_message_Some in Hf as (Hi & _).
    apply list_elem_of_lookup in Hm' as [j Hj].
    destruct (decide (j = i)) as [->|Hne].
    + rewrite list_lookup_insert_eq in Hj by (by eapply lookup_lt_Some).
      injection Hj as <-. exists m0.
      split; [by eapply list_elem_of_lookup_2|apply cast_vote_content].
    + rewrite list_lookup_insert_ne in Hj by done.
      exists m'. split; [by eapply list_elem_of_lookup_2|by repeat split].
Qed.

Lemma run_content_kept tr st st' out m' :
  run tr st = Ok (st', out) →
  NoDup (uuids tr) →
  (∀ u, u ∈ uuids tr → u ∉ ids st) →
  m' ∈ messages st' →
  Message.id m' ∈ ids st →
  ∃ m, m ∈ messages st ∧ same_content m m' ∧
       Message.voters m `prefix_of` Message.voters m'.
Proof.
  revert st out. induction tr as [|e tr IH]; intros st out Hrun Hu Hfresh Hm' Hid.
  - simpl in Hrun. injection Hrun as <- _. exists m'. by repeat split.
  - apply run_cons_inv in Hrun as (st1 & o1 & o2 & He & Hr & _).
    change (e :: tr) with ([e] ++ tr) in Hu, Hfresh.
    rewrite uuids_app in Hu, Hfresh.
    apply NoDup_app in Hu as (_ & Hdisj & Hu).
    assert (∀ u, u ∈ uuids tr → u ∉ ids st1) as Hfresh1.
    { intros u Hin Hin'.
      destruct (step_ids_incl _ _ _ _ _ He Hin') as [Hold|Hnew].
      - apply (Hfresh u); [apply elem_of_app; by right|done].
      - by apply (Hdisj u). }
    assert (Message.id m' ∈ ids st1) as Hid1.
    { apply list_elem_of_fmap_2 with (f := Message.id) in Hm' as Hin.
      destruct (run_ids_incl _ _ _ _ _ Hr Hin) as [?|Hnew]; [done|].
      exfalso. apply (Hfresh (Message.id m')); [apply elem_of_app; by right|done]. }
    destruct (IH _ _ Hr Hu Hfresh1 Hm' Hid1)
      as (m1 & Hm1 & (Hi1 & Ht1 & Hn1 & Hs1) & Hp1).
    destruct (step_content_kept e st st1 o1 m1 He)
      as (m & Hm & (Hi0 & Ht0 & Hn0 & Hs0) & Hp0); [|done|by rewrite <- Hi1|].
    { intros u Hin. apply Hfresh, elem_of_app. by left. }
    exists m. split; [done|]. split.
    + repeat split; congruence.
    + by etrans.
Qed.

(** X8: identifiers being unique, while a message stays in the store its
    id, text, author name and timestamp never change, whatever happens (the
    author disconnecting included), and its voters only grow at the end:
    the earlier list of voters is a prefix of the later one. *)
Theorem stored_message_immutable tr1 tr2 st1 out1 st2 out2 m m' :
  NoDup (uuids (tr1 ++ tr2)) →
  run tr1 initial_state = Ok (st1, out1) →
  run tr2 st1 = Ok (st2, out2) →
  m ∈ messages st1 →
  m' ∈ messages st2 →
  Message.id m' = Message.id m →
  Message.text m' = Message.text m ∧
  Message.username m' = Message.username m ∧
  Message.timestamp m' = Message.timestamp m ∧
  Message.voters m `prefix_of` Message.voters m'.
Proof.
  intros Hnd Hr1 Hr2 Hm Hm' Hid.
  rewrite uuids_app in Hnd. apply NoDup_app in Hnd as (Hnd1 & Hdisj & Hnd2).
  destruct (reachable_ids _ _ _ Hr1 Hnd1) as [Hnd_ids Hincl].
  destruct (run_content_kept tr2 st1 st2 out2 m' Hr2 Hnd2)
    as (m0 & Hm0 & (Hi0 & Ht0 & Hn0 & Hs0) & Hp0).
  - intros u Hin Hin'. apply (Hdisj u); auto.
  - done.
  - rewrite Hid. by apply list_elem_of_fmap_2.
  - assert (m0 = m) as ->.
    { apply (unique_message (messages st1)); [done..|congruence]. }
    done.
Qed.

Lemma stored_message_immutable_witness :
  Message.text scenario_message = JStr "hello" ∧
  Message.username scenario_message = "SilentUser1" ∧
  Message.timestamp scenario_message = 20%Z ∧
  [] `prefix_of` Message.voters scenario_message.
Proof.
  apply (stored_message_immutable
           (take 4 scenario_votes) (drop 4 scenario_votes ++ [disconnect "A"])
           (state_after (take 4 scenario_votes) initial_state)
           (output_after (take 4 scenario_votes) initial_state)
           (state_after (scenario_votes ++ [disconnect "A"]) initial_state)
           (output_after (drop 4 scenario_votes ++ [disconnect "A"])
              (state_after (take 4 scenario_votes) initial_state))
           (Message.mk "m1" (JStr "hello") "SilentUser1" 20 0 [])
           scenario_message).
  - apply (bool_decide_unpack _). vm_compute. exact I.
  - vm_compute. reflexivity.
  - vm_compute. reflexivity.
  - vm_compute. left.
  - vm_compute. left.
  - reflexivity.
Defined.

(** ** What a connected client displays *)

Lemma api_messages_eq st : api_messages st = messages st.
Proof.
  unfold api_messages. induction (messages st) as [|[] l IH]; [done|].
  rewrite fmap_cons, IH. done.
Qed.

Lemma client_view_app c o1 o2 cl :
  client_view c (o1 ++ o2) cl = client_view c o2 (client_view c o1 cl).
Proof. apply foldl_app. Qed.

Lemma cast_vote_record vt u m :
  cast_vote vt u m =
    {| Message.id := Message.id m; Message.text := Message.text m;
       Message.username := Message.username m;
       Message.timestamp := Message.timestamp m;
       Message.votes := Message.votes (cast_vote vt u m);
       Message.voters := Message.voters (cast_vote vt u m) |}.
Proof.
  destruct (cast_vote_cases vt u m) as [->|(_ & d & ->)]; by destruct m.
Qed.

Lemma apply_update_insert (l : list Message.t) j m votes voters :
  NoDup (Message.id <$> l) →
  l !! j = Some m →
  apply_update (Message.id m) votes voters <$> l =
    <[j := {| Message.id := Message.id m; Message.text := Message.text m;
              Message.username := Message.username m;
              Message.timestamp := Message.timestamp m;
              Message.votes := votes; Message.voters := voters |}]> l.
Proof.
  intros Hnd Hj. apply list_eq. intros k. rewrite list_lookup_fmap.
  destruct (decide (k = j)) as [->|Hne].
  - rewrite list_lookup_insert_eq by (by eapply lookup_lt_Some).
    rewrite Hj. simpl. unfold apply_update. by rewrite decide_True.
  - rewrite list_lookup_insert_ne by done.
    destruct (l !! k) as [x|] eqn:Hk; [|done]. simpl. f_equal.
    unfold apply_update. rewrite decide_False; [done|].
    intros Heq. apply Hne. by apply (unique_id l k j x m).
Qed.

Lemma step_in_sync c name e st st' out cl :
  step e st = Ok (st', out) →
  in_sync name st cl →
  c ∉ connection_ids [e] →
  (∀ u, u ∈ uuids [e] → u ∉ Message.id <$> Client.messages cl) →
  in_sync name st' (client_view c out cl) ∧
  ∀ x, x ∈ Message.id <$> Client.messages (client_view c out cl) →
       x ∈ Message.id <$> Client.messages cl ∨ x ∈ uuids [e].
Proof.
  intros He (Hwin & Hnd & Hcount & Hname) Hc Hfresh.
  destruct e as [s name' now|s data uuid now|s data|s]; simpl in He.
  - injection He as <- <-. simpl in Hc. apply not_elem_of_cons in Hc as [Hc _].
    unfold client_view. simpl. rewrite !decide_False by congruence. simpl.
    split; [by repeat split|by left].
  - destruct (users st !! s) as [user|] eqn:Hu.
    + destruct (get_prop data "text") as [txt|err] eqn:Ht.
      * rewrite (on_send_message_ok _ _ _ _ _ _ _ Hu Ht) in He.
        injection He as <- <-. unfold client_view. simpl. split.
        -- repeat split; simpl; try done.
           ++ rewrite slice_last_push by (unfold capacity; lia).
              by rewrite <- Hwin.
           ++ rewrite fmap_app. apply NoDup_app. split_and!; [done| |].
              ** intros x Hx ->%list_elem_of_singleton.
                 apply (Hfresh uuid); [by left|done].
              ** apply NoDup_singleton.
        -- intros x. rewrite fmap_app, elem_of_app. simpl.
           intros [?|?]; [by left|by right].
      * by rewrite (on_send_message_throw _ _ _ _ _ _ _ Hu Ht) in He.
    + rewrite (on_send_message_unknown _ _ _ _ _ Hu) in He.
      injection He as <- <-. split; [by repeat split|by left].
  - destruct (get_prop data "messageId") as [mid|err] eqn:Hm;
      [|by unfold on_vote_message in He; rewrite Hm in He].
    destruct (get_prop_ok_both _ _ _ "voteType" Hm) as [vt Hv].
    destruct (find_message mid (messages st)) as [[i m]|] eqn:Hf.
    + rewrite (on_vote_message_found _ _ _ _ _ _ _ Hm Hv Hf) in He.
      injection He as <- <-. unfold client_view. simpl.
      apply find_message_Some in Hf as (Hi & _).
      rewrite Hwin in Hi. unfold slice_last in Hi. rewrite lookup_drop in Hi.
      rewrite (apply_update_insert _ _ _ _ _ Hnd Hi), <- cast_vote_record.
      split.
      * repeat split; simpl; try done.
        -- rewrite Hwin. unfold slice_last.
           rewrite length_insert, drop_insert_ge by lia. f_equal. lia.
        -- by rewrite ids_vote.
      * intros x. rewrite ids_vote by done. by left.
    + rewrite (on_vote_message_missing _ _ _ _ Hm Hf) in He.
      injection He as <- <-. split; [by repeat split|by left].
  - injection He as <- <-. unfold client_view. simpl.
    split; [by repeat split|by left].
Qed.

Lemma run_in_sync c name tr st st' out cl :
  run tr st = Ok (st', out) →
  in_sync name st cl →
  c ∉ connection_ids tr →
  NoDup (uuids tr) →
  (∀ u, u ∈ uuids tr → u ∉ Message.id <$> Client.messages cl) →
  in_sync name st' (client_view c out cl).
Proof.
  revert st out cl. induction tr as [|e tr IH];
    intros st out cl Hrun Hsync Hc Hu Hfresh.
  - simpl in Hrun. by injection Hrun as <- <-.
  - apply run_cons_inv in Hrun as (st1 & o1 & o2 & He & Hr & ->).
    change (e :: tr) with ([e] ++ tr) in Hc, Hu, Hfresh.
    rewrite connection_ids_app in Hc. rewrite uuids_app in Hu, Hfresh.
    apply not_elem_of_app in Hc as [Hc1 Hc2].
    apply NoDup_app in Hu as (_ & Hdisj & Hu).
    destruct (step_in_sync c name _ _ _ _ cl He Hsync Hc1) as [Hsync1 Hids].
    { intros u Hin. apply Hfresh, elem_of_app. by left. }
    rewrite client_view_app. apply (IH _ _ _ Hr Hsync1 Hc2 Hu).
    intros u Hin Hin'. destruct (Hids u Hin') as [Hold|Hnew].
    + apply (Hfresh u); [apply elem_of_app; by right|done].
    + by apply (Hdisj u).
Qed.

(** X9: a client that connects while the store is empty and stays
    connected shows the server's state.  After any further trace with
    unique identifiers, what [/api/messages] returns is exactly the last
    100 entries of the client's message list (the client never trims its
    list), with the same scores and voters; the client's counter is the
    size of [users]; and its name is the one assigned at connection. *)
Theorem client_shows_server_state c name now tr st0 st out :
  messages st0 = [] →
  NoDup (uuids tr) →
  c ∉ connection_ids tr →
  c ∉ disconnect_ids tr →
  run (connection c name now :: tr) st0 = Ok (st, out) →
  api_messages st =
    slice_last capacity (Client.messages (client_view c out client_start)) ∧
  Client.userCount (client_view c out client_start) = size (users st) ∧
  Client.username (client_view c out client_start) = name.
Proof.
  intros Hempty Hu Hc _ Hrun.
  apply run_cons_inv in Hrun as (st1 & o1 & o2 & He & Hr & ->).
  simpl in He. injection He as <- <-.
  rewrite client_view_app, api_messages_eq.
  set (users1 := <[c := User.mk name now]> (users st0)) in *.
  assert (client_view c
            [ socket_emit c (initial_messages (messages st0));
              socket_emit c (username_assigned name);
              io_emit (user_count (size users1)) ] client_start
          = Client.mk [] name (size users1)) as ->.
  { unfold client_view. simpl. rewrite !decide_True by done. simpl.
    by rewrite Hempty. }
  destruct (run_in_sync c name tr _ st o2 (Client.mk [] name (size users1)) Hr)
    as (H1 & _ & H3 & H4); try done.
  - simpl. rewrite Hempty. repeat split. apply NoDup_nil_2.
  - intros u _. apply not_elem_of_nil.
Qed.

Lemma client_shows_server_state_witness :
  api_messages
    (state_after (connection "D" "VeiledBeing7" 5 :: scenario_clients)
       initial_state) =
    slice_last capacity
      (Client.messages
         (client_view "D"
            (output_after (connection "D" "VeiledBeing7" 5 :: scenario_clients)
               initial_state) client_start)) ∧
  Client.userCount
    (client_view "D"
       (output_after (connection "D" "VeiledBeing7" 5 :: scenario_clients)
          initial_state) client_start) =
    size (users (state_after (connection "D" "VeiledBeing7" 5 :: scenario_clients)
                   initial_state)) ∧
  Client.username
    (client_view "D"
       (output_after (connection "D" "VeiledBeing7" 5 :: scenario_clients)
          initial_state) client_start) = "VeiledBeing7".
Proof.
  apply (client_shows_server_state "D" "VeiledBeing7" 5%Z scenario_clients
           initial_state).
  - reflexivity.
  - apply (bool_decide_unpack _). vm_compute. exact I.
  - apply (bool_decide_unpack _). vm_compute. exact I.
  - apply (bool_decide_unpack _). vm_compute. exact I.
  - vm_compute. reflexivity.
Defined.

Example client_view_example :
  client_view "D"
    (output_after (connection "D" "VeiledBeing7" 5 :: scenario_clients)
       initial_state) client_start
  = Client.mk
      [ Message.mk "m1" (JStr "hello") "SilentUser1" 20 1 ["B"];
        Message.mk "m2" (JStr "hi") "ShadowGuest2" 22 (-1) ["A"] ]
      "VeiledBeing7" 2.
Proof. vm_compute. reflexivity. Qed.

(** ** A session that only watches *)

Lemma step_with_lurker sid user e st st' st1 out :
  socket_of e ≠ sid →
  with_lurker sid user st st' →
  step e st = Ok (st1, out) →
  ∃ st1' out', step e st' = Ok (st1', out') ∧ with_lurker sid user st1 st1'.
Proof.
  intros Hne (Hms & Hus & Hnone) He. unfold with_lurker.
  destruct e as [s name now|s data uuid now|s data|s]; simpl in Hne, He |- *.
  - injection He as <- <-. eexists _, _. split; [done|]. simpl.
    rewrite Hus. split_and!; [done| |].
    + by apply insert_insert_ne.
    + by rewrite lookup_insert_ne.
  - unfold on_send_message in *. rewrite Hus, lookup_insert_ne by done.
    destruct (users st !! s) as [u|].
    + destruct (get_prop data "text") as [txt|]; [|done]. simpl in *.
      injection He as <- <-. rewrite Hms. eexists _, _. split; [done|].
      by split_and!.
    + injection He as <- <-. eexists _, _. split; [done|]. by split_and!.
  - unfold on_vote_message in *.
    destruct (get_prop data "messageId") as [mid|]; [|done].
    destruct (get_prop data "voteType") as [vt|]; [|done]. simpl in *.
    rewrite Hms. destruct (find_message mid (messages st)) as [[i m]|];
      injection He as <- <-; (eexists _, _; split; [done|]; by split_and!).
  - injection He as <- <-. eexists _, _. split; [done|]. simpl.
    rewrite Hus. split_and!; [done| |].
    + by apply delete_insert_ne.
    + rewrite lookup_delete_ne by done. done.
Qed.

Lemma run_with_lurker sid user tr st st' st1 out :
  Forall (fun e => socket_of e ≠ sid) tr →
  with_lurker sid user st st' →
  run tr st = Ok (st1, out) →
  ∃ st1' out', run tr st' = Ok (st1', out') ∧ with_lurker sid user st1 st1'.
Proof.
  revert st st' out. induction tr as [|e tr IH]; intros st st' out Hall Hl Hrun.
  - simpl in Hrun. injection Hrun as <- <-. by exists st', [].
  - apply Forall_cons in Hall as [Hne Hall].
    apply run_cons_inv in Hrun as (st2 & o1 & o2 & He & Hr & ->).
    destruct (step_with_lurker _ _ _ _ _ _ _ Hne Hl He) as (st2' & o1' & He' & Hl2).
    destruct (IH _ _ _ Hall Hl2 Hr) as (st1' & o2' & Hr' & Hl1).
    exists st1', (o1' ++ o2'). split; [|done].
    cbn [run]. rewrite He'. cbn. by rewrite Hr'.
Qed.

(** X10: a socket that connects, sends nothing and votes on nothing, and
    disconnects leaves no trace: whatever the other sockets do in between,
    the final state (messages, scores, voters and registry) is the one
    reached without it. *)
Theorem lurker_leaves_no_trace sid name now tr st0 st out :
  users st0 !! sid = None →
  Forall (fun e => socket_of e ≠ sid) tr →
  run tr st0 = Ok (st, out) →
  ∃ out',
    run (connection sid name now :: tr ++ [disconnect sid]) st0 = Ok (st, out').
Proof.
  intros Hnone Hall Hrun.
  destruct (run_with_lurker sid (User.mk name now) tr st0
              {| messages := messages st0;
                 users := <[sid := User.mk name now]> (users st0) |}
              st out Hall) as (st' & out' & Hr' & Hms & Hus & Hnone');
    [by split_and!|done|].
  eexists. change (connection sid name now :: tr ++ [disconnect sid])
    with ([connection sid name now] ++ tr ++ [disconnect sid]).
  eapply run_app; [reflexivity|]. cbn [fst].
  eapply run_app; [exact Hr'|].
  cbn [run step on_disconnect mbind Result_bind fst snd].
  rewrite Hms, Hus, delete_insert_id by done. by rewrite state_eta.
Qed.

Lemma lurker_leaves_no_trace_witness :
  ∃ out',
    run (connection "L" "MaskedLurker9" 15 :: scenario_votes ++ [disconnect "L"])
      initial_state = Ok (scenario_state, out').
Proof.
  apply (lurker_leaves_no_trace "L" "MaskedLurker9" 15%Z scenario_votes
           initial_state scenario_state
           (output_after scenario_votes initial_state)).
  - reflexivity.
  - apply (bool_decide_unpack _). vm_compute. exact I.
  - vm_compute. reflexivity.
Defined.

(** ** The snapshot for a late joiner *)

Lemma snapshots_app o1 o2 : snapshots (o1 ++ o2) = snapshots o1 ++ snapshots o2.
Proof.
  induction o1 as [|e o1 IH]; [done|].
  destruct e as [s p|p]; [|apply IH]. destruct p; simpl; by rewrite ?IH.
Qed.

Lemma step_snapshots e st st' out :
  step e st = Ok (st', out) →
  snapshots out = match e with
                  | connection _ _ _ => [messages st]
                  | _ => []
                  end.
Proof.
  destruct e as [s name now|s data uuid now|s data|s]; simpl.
  - by intros [= _ <-].
  - unfold on_send_message. destruct (users st !! s); [|by intros [= _ <-]].
    destruct (get_prop data "text"); [|done]. by intros [= _ <-].
  - unfold on_vote_message.
    destruct (get_prop data "messageId"); [|done].
    destruct (get_prop data "voteType"); [|done]. simpl.
    destruct (find_message _ _) as [[]|]; by intros [= _ <-].
  - by intros [= _ <-].
Qed.

(** X11: every snapshot sent to a connecting socket holds at most 100
    messages, on any trace that starts from a store within capacity. *)
Theorem snapshot_bounded tr st0 st out :
  length (messages st0) ≤ capacity →
  run tr st0 = Ok (st, out) →
  Forall (fun ms => length ms ≤ capacity) (snapshots out).
Proof.
  revert st0 out. induction tr as [|e tr IH]; intros st0 out Hlen Hrun.
  - simpl in Hrun. injection Hrun as _ <-. constructor.
  - apply run_cons_inv in Hrun as (st1 & o1 & o2 & He & Hr & ->).
    rewrite snapshots_app. apply Forall_app. split.
    + rewrite (step_snapshots _ _ _ _ He).
      destruct e; [by apply Forall_singleton|constructor..].
    + apply (IH _ _ (step_length _ _ _ _ He Hlen) Hr).
Qed.

Lemma snapshot_bounded_witness :
  Forall (fun ms => length ms ≤ capacity)
    (snapshots (output_after (flood 101 ++ [connection "B" "ShadowGuest2" 300])
                  initial_state)).
Proof.
  apply (snapshot_bounded (flood 101 ++ [connection "B" "ShadowGuest2" 300])
           initial_state
           (state_after (flood 101 ++ [connection "B" "ShadowGuest2" 300])
              initial_state)).
  - vm_compute. lia.
  - vm_compute. reflexivity.
Defined.

(** ** Votes by different voters *)

Lemma JsSet_has_add_ne a b s : a ≠ b → JsSet.has a (JsSet.add b s) = JsSet.has a s.
Proof.
  intros Hne. apply eq_true_iff_eq. rewrite !JsSet_has_true, JsSet_add_elem.
  split; [by intros [?|?]|by right].
Qed.

Lemma cast_vote_shape vt u m :
  ∃ delta,
    (delta ≠ None → u ∉ Message.voters m) ∧
    ∀ m', JsSet.has u (Message.voters m') = JsSet.has u (Message.voters m) →
          cast_vote vt u m' = vote_effect delta u m'.
Proof.
  destruct (JsSet.has u (Message.voters m)) eqn:Hhas.
  - exists None. split; [done|]. intros m' Hm'. unfold cast_vote.
    by rewrite Hm', !andb_false_r.
  - apply JsSet_has_false in Hhas.
    destruct (strict_eq_str "up" vt) eqn:Hup.
    { exists (Some 1%Z). split; [done|]. intros m' Hm'. unfold cast_vote.
      by rewrite Hm', Hup. }
    destruct (strict_eq_str "down" vt) eqn:Hdown.
    { exists (Some (-1)%Z). split; [done|]. intros m' Hm'. unfold cast_vote.
      by rewrite Hm', Hup, Hdown. }
    exists None. split; [done|]. intros m' Hm'. unfold cast_vote.
    by rewrite Hup, Hdown.
Qed.

Lemma vote_effect_has_ne delta a b m :
  a ≠ b →
  JsSet.has a (Message.voters (vote_effect delta b m))
    = JsSet.has a (Message.voters m).
Proof.
  intros Hne. destruct delta; simpl; [|done]. by apply JsSet_has_add_ne.
Qed.

Lemma same_score_refl m : same_score m m.
Proof. by repeat split. Qed.

Lemma cast_vote_comm vta vtb a b m :
  a ≠ b →
  same_score (cast_vote vtb b (cast_vote vta a m))
             (cast_vote vta a (cast_vote vtb b m)).
Proof.
  intros Hne.
  destruct (cast_vote_shape vta a m) as (da & Ha & Hfa).
  destruct (cast_vote_shape vtb b m) as (db & Hb & Hfb).
  rewrite (Hfa m eq_refl), (Hfb m eq_refl).
  rewrite (Hfa (vote_effect db b m)) by (by apply vote_effect_has_ne).
  rewrite (Hfb (vote_effect da a m))
    by (by apply vote_effect_has_ne; congruence).
  destruct da as [da|], db as [db|]; simpl; try apply same_score_refl.
  repeat split; simpl; [lia|].
  rewrite (JsSet_add_new a (Message.voters m)) by (by apply Ha).
  rewrite (JsSet_add_new b (Message.voters m)) by (by apply Hb).
  assert (a ∉ Message.voters m) as Ha' by (by apply Ha).
  assert (b ∉ Message.voters m) as Hb' by (by apply Hb).
  rewrite !JsSet_add_new;
    try (rewrite elem_of_app, list_elem_of_singleton;
         intros [?|?]; [done|congruence]).
  rewrite <- !app_assoc. apply Permutation_app_head, perm_swap.
Qed.

Lemma find_message_intro v ms j x :
  ms !! j = Some x →
  v = JStr (Message.id x) →
  (∀ k y, ms !! k = Some y → k < j → Message.id y ≠ Message.id x) →
  find_message v ms = Some (j, x).
Proof.
  intros Hj -> Hfirst. apply list_find_Some. split_and!; [done| |].
  - apply Is_true_true, strict_eq_str_refl.
  - intros k y Hk Hlt HP%Is_true_true%strict_eq_str_true.
    injection HP as ?. by apply (Hfirst k y).
Qed.

Lemma find_message_insert v ms i m m' :
  ms !! i = Some m →
  Message.id m' = Message.id m →
  find_message v (<[i := m']> ms) =
    match find_message v ms with
    | Some (j, x) => Some (j, if decide (j = i) then m' else x)
    | None => None
    end.
Proof.
  intros Hi Hid.
  destruct (find_message v ms) as [[j x]|] eqn:Hf.
  - apply find_message_Some in Hf as (Hj & -> & Hfirst).
    apply find_message_intro.
    + case_decide as Hji; [subst j|].
      * apply list_lookup_insert_eq. by eapply lookup_lt_Some.
      * by rewrite list_lookup_insert_ne.
    + case_decide as Hji; [subst j|done]. congruence.
    + intros k y Hk Hlt.
      assert (∃ y0, ms !! k = Some y0 ∧ Message.id y0 = Message.id y)
        as (y0 & Hk0 & Hy0).
      { destruct (decide (k = i)) as [->|Hki].
        - rewrite list_lookup_insert_eq in Hk by (by eapply lookup_lt_Some).
          injection Hk as <-. eauto.
        - rewrite list_lookup_insert_ne in Hk by done. eauto. }
      rewrite <- Hy0. case_decide as Hji; [subst j|by apply (Hfirst k y0)].
      rewrite Hid. assert (x = m) as -> by congruence.
      by apply (Hfirst k y0).
  - apply find_message_None. intros y [k Hk]%list_elem_of_lookup.
    rewrite find_message_None in Hf.
    destruct (decide (k = i)) as [->|Hki].
    + rewrite list_lookup_insert_eq in Hk by (by eapply lookup_lt_Some).
      injection Hk as <-. rewrite Hid. apply Hf. by eapply list_elem_of_lookup_2.
    + rewrite list_lookup_insert_ne in Hk by done.
      apply Hf. by eapply list_elem_of_lookup_2.
Qed.

Lemma Forall2_same_score_refl (ms : list Message.t) : Forall2 same_score ms ms.
Proof. induction ms; constructor; [apply same_score_refl|done]. Qed.

(** X12: votes by two different socket ids commute.  If the votes of [a]
    and then [b] are handled, so are those of [b] and then [a], and both
    orders end in the same registry and in the same messages with the same
    scores; only the order in which the two ids appear among a message's
    voters can differ. *)
Theorem votes_commute a b da db st sa oa sab ob :
  a ≠ b →
  on_vote_message a da st = Ok (sa, oa) →
  on_vote_message b db sa = Ok (sab, ob) →
  ∃ sb ob' sba oa',
    on_vote_message b db st = Ok (sb, ob') ∧
    on_vote_message a da sb = Ok (sba, oa') ∧
    users sba = users sab ∧
    Forall2 same_score (messages sab) (messages sba).
Proof.
  intros Hne Ha Hb.
  destruct (get_prop da "messageId") as [mida|] eqn:Hma;
    [|by unfold on_vote_message in Ha; rewrite Hma in Ha].
  destruct (get_prop_ok_both _ _ _ "voteType" Hma) as [vta Hva].
  destruct (get_prop db "messageId") as [midb|] eqn:Hmb;
    [|by unfold on_vote_message in Hb; rewrite Hmb in Hb].
  destruct (get_prop_ok_both _ _ _ "voteType" Hmb) as [vtb Hvb].
  destruct (find_message mida (messages st)) as [[i m]|] eqn:Hfa; cycle 1.
  { (* [a]'s message is unknown *)
    rewrite (on_vote_message_missing _ _ _ _ Hma Hfa) in Ha.
    injection Ha as <- <-. exists sab, ob, sab, []. split; [done|].
    split; [|split; [done|apply Forall2_same_score_refl]].
    apply (on_vote_message_missing _ _ _ _ Hma).
    destruct (find_message midb (messages st)) as [[j x]|] eqn:Hfb.
    - rewrite (on_vote_message_found _ _ _ _ _ _ _ Hmb Hvb Hfb) in Hb.
      injection Hb as <- _. simpl.
      apply find_message_Some in Hfb as (Hj & _).
      by rewrite (find_message_insert _ _ _ x) by (done || apply cast_vote_id); rewrite Hfa.
    - rewrite (on_vote_message_missing _ _ _ _ Hmb Hfb) in Hb.
      by injection Hb as <- _. }
  pose proof (find_message_Some _ _ _ _ Hfa) as (Hi & _).
  rewrite (on_vote_message_found _ _ _ _ _ _ _ Hma Hva Hfa) in Ha.
  injection Ha as <- <-.
  set (sa := {| messages := <[i := cast_vote vta a m]> (messages st);
                users := users st |}) in *.
  assert (find_message midb (messages sa) =
          match find_message midb (messages st) with
          | Some (j, x) => Some (j, if decide (j = i) then cast_vote vta a m else x)
          | None => None
          end) as Hfb'
    by (apply (find_message_insert _ _ _ m); [done|apply cast_vote_id]).
  destruct (find_message midb (messages st)) as [[j x]|] eqn:Hfb; cycle 1.
  { (* [b]'s message is unknown *)
    rewrite (on_vote_message_missing _ _ _ _ Hmb Hfb') in Hb.
    injection Hb as <- <-.
    exists st, [], sa, [ io_emit (message_updated (Message.id m)
                                   (Message.votes (cast_vote vta a m))
                                   (Message.voters (cast_vote vta a m))) ].
    split; [by apply on_vote_message_missing with midb|].
    split; [apply (on_vote_message_found _ _ _ _ _ _ _ Hma Hva Hfa)|].
    split; [done|apply Forall2_same_score_refl]. }
  pose proof (find_message_Some _ _ _ _ Hfb) as (Hj & _).
  rewrite (on_vote_message_found _ _ _ _ _ _ _ Hmb Hvb Hfb') in Hb.
  injection Hb as <- <-. cbn [messages users].
  set (sb := {| messages := <[j := cast_vote vtb b x]> (messages st);
                users := users st |}).
  assert (find_message mida (messages sb) =
          Some (i, if decide (i = j) then cast_vote vtb b x else m)) as Hfa'.
  { simpl. rewrite (find_message_insert _ _ _ x) by (done || apply cast_vote_id).
    by rewrite Hfa. }
  exists sb. eexists. eexists. eexists.
  split; [apply (on_vote_message_found _ _ _ _ _ _ _ Hmb Hvb Hfb)|].
  split; [apply (on_vote_message_found _ _ _ _ _ _ _ Hma Hva Hfa')|].
  split; [done|]. unfold sa, sb. cbn [messages].
  destruct (decide (j = i)) as [->|Hji].
  - rewrite decide_True by done. assert (x = m) as -> by congruence.
    rewrite !list_insert_insert_eq.
    apply Forall2_insert; [apply Forall2_same_score_refl|].
    by apply cast_vote_comm.
  - rewrite decide_False by congruence.
    rewrite list_insert_insert_ne by done. apply Forall2_same_score_refl.
Qed.

Lemma votes_commute_witness :
  ∃ sb ob' sba oa',
    on_vote_message "C" (vote_payload "m1" (JStr "down"))
        (state_after (take 4 scenario_votes) initial_state) = Ok (sb, ob') ∧
    on_vote_message "B" (vote_payload "m1" (JStr "up")) sb = Ok (sba, oa') ∧
    users sba = users scenario_state ∧
    Forall2 same_score (messages scenario_state) (messages sba).
Proof.
  apply (votes_commute "B" "C"
           (vote_payload "m1" (JStr "up")) (vote_payload "m1" (JStr "down"))
           (state_after (take 4 scenario_votes) initial_state)
           (state_after (take 5 scenario_votes) initial_state)
           [ io_emit (message_updated "m1" 1 ["B"]) ]
           scenario_state
           [ io_emit (message_updated "m1" 0 ["B"; "C"]) ]).
  - discriminate.
  - vm_compute. reflexivity.
  - vm_compute. reflexivity.
Defined.

(** ** How a vote is decided *)

Lemma cast_vote_counted d u m :
  u ∉ Message.voters m →
  cast_vote (JStr (direction_name d)) u m = counted d u m.
Proof.
  intros Hnew. rewrite cast_vote_direction by done.
  unfold Message.with_vote, counted. by rewrite JsSet_add_new.
Qed.

Lemma cast_vote_decided vt u m : cast_vote vt u m = decided vt u m.
Proof.
  unfold decided. case_bool_decide as Hin; [by apply cast_vote_voted|].
  destruct (parse_direction vt) as [d|] eqn:Hd.
  - apply parse_direction_Some in Hd as ->. by apply cast_vote_counted.
  - apply parse_direction_None in Hd as [??]. by apply cast_vote_other.
Qed.

Lemma on_vote_message_decided sid data st messageId voteType :
  get_prop data "messageId" = Ok messageId →
  get_prop data "voteType" = Ok voteType →
  on_vote_message sid data st =
    match find_message messageId (messages st) with
    | None => Ok (st, [])
    | Some (i, m) =>
        Ok ({| messages := <[i := decided voteType sid m]> (messages st);
               users := users st |},
            [ io_emit (message_updated (Message.id m)
                         (Message.votes (decided voteType sid m))
                         (Message.voters (decided voteType sid m))) ])
    end.
Proof.
  intros Hm Hv. destruct (find_message messageId (messages st)) as [[i m]|] eqn:Hf.
  - rewrite (on_vote_message_found _ _ _ _ _ _ _ Hm Hv Hf).
    by rewrite cast_vote_decided.
  - by apply on_vote_message_missing with messageId.
Qed.

Lemma on_vote_message_counted voter data st messageId i m d :
  get_prop data "messageId" = Ok messageId →
  get_prop data "voteType" = Ok (JStr (direction_name d)) →
  find_message messageId (messages st) = Some (i, m) →
  voter ∉ Message.voters m →
  on_vote_message voter data st =
    Ok ({| messages := <[i := counted d voter m]> (messages st);
           users := users st |},
        [ io_emit (message_updated (Message.id m)
                     (Message.votes m + direction_delta d)%Z
                     (Message.voters m ++ [voter])) ]).
Proof.
  intros Hm Hv Hf Hnew.
  rewrite (on_vote_message_found _ _ _ _ _ _ _ Hm Hv Hf).
  by rewrite cast_vote_counted.
Qed.

Lemma session_of_no_connection sid tr :
  sid ∉ connection_ids tr → session_of sid tr None = None.
Proof.
  induction tr as [|e tr IH]; [done|].
  destruct e as [s name now|s data uuid now|s data|s]; simpl; try done.
  - intros [Hne Hrest]%not_elem_of_cons. rewrite decide_False by congruence.
    auto.
  - intros Hrest. case_decide; auto.
Qed.

(** ** C8: disconnecting *)

(** C8: [disconnect] deletes the socket's entry from [users] and touches
    nothing else: [messages] is the same list (scores and voters
    included), and a vote carrying the departed socket id has, on the
    messages and on what is emitted, exactly the effect it has without the
    disconnect.  At any later time, while that id has not connected again,
    it has no entry in [users], and yet a vote carrying it is decided by
    the target message's voters alone: unknown message, nothing happens;
    id already among the voters, the message is left as it is and
    broadcast; id not among them and a direction given, the score moves by
    one, the id is added after the other voters, and that is broadcast. *)
Theorem disconnect_frame sid st :
  ∃ st',
    on_disconnect sid st = Ok (st', [ io_emit (user_count (size (users st'))) ]) ∧
    users st' = delete sid (users st) ∧
    messages st' = messages st ∧
    (∀ data,
       on_vote_message sid data st' =
         match on_vote_message sid data st with
         | Ok (st2, out) =>
             Ok ({| messages := messages st2; users := users st' |}, out)
         | Throw e => Throw e
         end) ∧
    (∀ tr st2 out2 data messageId voteType,
       run tr st' = Ok (st2, out2) →
       sid ∉ connection_ids tr →
       get_prop data "messageId" = Ok messageId →
       get_prop data "voteType" = Ok voteType →
       users st2 !! sid = None ∧
       on_vote_message sid data st2 =
         match find_message messageId (messages st2) with
         | None => Ok (st2, [])
         | Some (i, m) =>
             let m' :=
               if bool_decide (sid ∈ Message.voters m) then m
               else match parse_direction voteType with
                    | Some d =>
                        {| Message.id := Message.id m;
                           Message.text := Message.text m;
                           Message.username := Message.username m;
                           Message.timestamp := Message.timestamp m;
                           Message.votes :=
                             (Message.votes m + direction_delta d)%Z;
                           Message.voters := Message.voters m ++ [sid] |}
                    | None => m
                    end in
             Ok ({| messages := <[i := m']> (messages st2);
                    users := users st2 |},
                 [ io_emit (message_updated (Message.id m) (Message.votes m')
                              (Message.voters m')) ])
         end).
Proof.
  exists {| messages := messages st; users := delete sid (users st) |}.
  split_and!; [reflexivity..| |].
  - intros data. unfold on_vote_message. simpl.
    destruct (get_prop data "messageId") as [mid|]; [|done].
    destruct (get_prop data "voteType") as [vt|]; [|done]. simpl.
    destruct (find_message mid (messages st)) as [[i m]|]; done.
  - intros tr st2 out2 data messageId voteType Hrun Hc Hm Hv. split.
    + rewrite (run_session_of _ _ _ _ sid Hrun). simpl.
      rewrite lookup_delete_eq. by apply session_of_no_connection.
    + apply (on_vote_message_decided _ _ _ _ _ Hm Hv).
Qed.

Lemma disconnect_frame_witness :
  users (state_after [disconnect "A"; connection "D" "VeiledBeing7" 40]
           scenario_state) !! "A" = None ∧
  on_vote_message "A" (vote_payload "m1" (JStr "up"))
      (state_after [disconnect "A"; connection "D" "VeiledBeing7" 40]
         scenario_state) =
    Ok ({| messages :=
             [ Message.mk "m1" (JStr "hello") "SilentUser1" 20 1 ["B"; "C"; "A"] ];
           users :=
             users (state_after [disconnect "A"; connection "D" "VeiledBeing7" 40]
                      scenario_state) |},
        [ io_emit (message_updated "m1" 1 ["B"; "C"; "A"]) ]).
Proof.
  destruct (disconnect_frame "A" scenario_state)
    as (st' & Hd & _ & _ & _ & Hlater).
  injection Hd as Hst _.
  destruct (Hlater [ connection "D" "VeiledBeing7" 40 ]
              (state_after [disconnect "A"; connection "D" "VeiledBeing7" 40]
                 scenario_state)
              (output_after [ connection "D" "VeiledBeing7" 40 ] st')
              (vote_payload "m1" (JStr "up")) (JStr "m1") (JStr "up"))
    as [Hgone Hvote].
  - rewrite <- Hst. vm_compute. reflexivity.
  - apply (bool_decide_unpack _). vm_compute. exact I.
  - reflexivity.
  - reflexivity.
  - split; [exact Hgone|]. rewrite Hvote. vm_compute. reflexivity.
Defined.

(** ** C10: the author's own vote *)

Lemma run_app_inv tr1 tr2 st st' out :
  run (tr1 ++ tr2) st = Ok (st', out) →
  ∃ st1 out1 out2,
    run tr1 st = Ok (st1, out1) ∧ run tr2 st1 = Ok (st', out2) ∧
    out = out1 ++ out2.
Proof.
  revert st out. induction tr1 as [|e tr1 IH]; intros st out H.
  - exists st, [], out. by simpl.
  - rewrite <- app_comm_cons in H.
    apply run_cons_inv in H as (st1 & o1 & o2 & He & Hr & ->).
    apply IH in Hr as (st2 & o3 & o4 & Hr1 & Hr2 & ->).
    exists st2, (o1 ++ o3), o4. split_and!; [|done|by rewrite app_assoc].
    cbn [run]. rewrite He. cbn. by rewrite Hr1.
Qed.

(** A message sent by a registered session is, for as long as it is
    stored, the one that send created. *)
Lemma authored_message tr1 tr2 sid user data txt uuid now st1 out1 st out i m :
  NoDup (uuids (tr1 ++ send_message sid data uuid now :: tr2)) →
  run tr1 initial_state = Ok (st1, out1) →
  users st1 !! sid = Some user →
  get_prop data "text" = Ok txt →
  run (tr1 ++ send_message sid data uuid now :: tr2) initial_state = Ok (st, out) →
  find_message (JStr uuid) (messages st) = Some (i, m) →
  same_content (fresh_message uuid txt user now) m.
Proof.
  intros Hnd Hr1 Hu Ht Hrun Hf.
  rewrite uuids_app in Hnd. simpl in Hnd.
  apply NoDup_app in Hnd as (Hnd1 & Hdisj & Hnd2).
  apply NoDup_cons in Hnd2 as [Hnew2 Hnd2].
  destruct (reachable_ids _ _ _ Hr1 Hnd1) as [Hids1 Hincl1].
  apply run_app_inv in Hrun as (sA & oA & oB & HrA & HrB & _).
  rewrite Hr1 in HrA. injection HrA as <- <-.
  apply run_cons_inv in HrB as (s1 & o1 & o2 & He & Hr2 & _).
  assert (uuid ∉ ids st1) as Hfresh1.
  { intros Hin. apply (Hdisj uuid); [by apply Hincl1|by left]. }
  assert (NoDup (ids s1)) as Hids.
  { apply (step_ids_NoDup _ _ _ _ He Hids1). simpl.
    by intros u ->%list_elem_of_singleton. }
  assert (∀ u, u ∈ uuids tr2 → u ∉ ids s1) as Hfresh2.
  { intros u Hin Hin'.
    destruct (step_ids_incl _ _ _ _ _ He Hin') as [Hold|Hsame].
    - apply (Hdisj u); [by apply Hincl1|by right].
    - simpl in Hsame. apply list_elem_of_singleton in Hsame as ->. done. }
  simpl in He. rewrite (on_send_message_ok _ _ _ _ _ _ _ Hu Ht) in He.
  injection He as <- _.
  apply find_message_Some in Hf as (Hi & [= Hid] & _).
  assert (fresh_message uuid txt user now ∈
            drop (evicted st1) (messages st1) ++ [fresh_message uuid txt user now])
    as Hlast by (apply elem_of_app; right; by left).
  destruct (run_content_kept tr2 _ st o2 m Hr2 Hnd2 Hfresh2)
    as (m0 & Hm0 & Hsame & _).
  - by eapply list_elem_of_lookup_2.
  - rewrite <- Hid. apply (list_elem_of_fmap_2 Message.id) in Hlast. exact Hlast.
  - assert (m0 = fresh_message uuid txt user now) as <-; [|done].
    apply (unique_message _ _ _ Hids Hm0 Hlast).
    destruct Hsame as (Hid0 & _). simpl. congruence.
Qed.

(** C10: the vote handler never looks at who wrote a message.  (1) Right
    after a send, a vote on the new message by any socket id, the author's
    included, gives score +1 or -1 and that id as the only voter.  (2) The
    author name stored in a message has no influence on how a vote is
    cast.  (3) In any state, for any stored message and any socket id not
    yet among its voters, registered or not, author or not, an up or down
    vote is counted: the score moves by one, the id is added after the
    earlier voters, and the new values are broadcast.  (4) In particular,
    on every trace with unique identifiers, as long as a message is stored
    it is the one its author sent, and if the author's id is not yet among
    its voters, whoever else has voted in the meantime, the author's vote
    is counted like that; after it a further vote by the author, with any
    [voteType], changes nothing. *)
Theorem self_vote_counts :
  (∀ sid user data txt uuid now st d,
     users st !! sid = Some user →
     get_prop data "text" = Ok txt →
     uuid ∉ ids st →
     ∃ st1 i,
       on_send_message sid data uuid now st =
         Ok (st1, [ io_emit (new_message (fresh_message uuid txt user now)) ]) ∧
       find_message (JStr uuid) (messages st1)
         = Some (i, fresh_message uuid txt user now) ∧
       ∀ voter,
         on_vote_message voter (vote_payload uuid (JStr (direction_name d))) st1 =
           Ok ({| messages :=
                    <[i := Message.mk uuid txt (User.username user) now
                             (direction_delta d) [voter]]> (messages st1);
                  users := users st1 |},
               [ io_emit (message_updated uuid (direction_delta d) [voter]) ])) ∧
  (∀ voteType voter name m,
     cast_vote voteType voter (rename name m)
       = rename name (cast_vote voteType voter m)) ∧
  (∀ st voter data messageId i m d,
     get_prop data "messageId" = Ok messageId →
     get_prop data "voteType" = Ok (JStr (direction_name d)) →
     find_message messageId (messages st) = Some (i, m) →
     voter ∉ Message.voters m →
     on_vote_message voter data st =
       Ok ({| messages :=
                <[i := {| Message.id := Message.id m;
                          Message.text := Message.text m;
                          Message.username := Message.username m;
                          Message.timestamp := Message.timestamp m;
                          Message.votes :=
                            (Message.votes m + direction_delta d)%Z;
                          Message.voters := Message.voters m ++ [voter] |}]>
                  (messages st);
              users := users st |},
           [ io_emit (message_updated (Message.id m)
                        (Message.votes m + direction_delta d)%Z
                        (Message.voters m ++ [voter])) ])) ∧
  (∀ tr1 tr2 sid user data txt uuid now st1 out1 st out i m,
     NoDup (uuids (tr1 ++ send_message sid data uuid now :: tr2)) →
     run tr1 initial_state = Ok (st1, out1) →
     users st1 !! sid = Some user →
     get_prop data "text" = Ok txt →
     run (tr1 ++ send_message sid data uuid now :: tr2) initial_state
       = Ok (st, out) →
     find_message (JStr uuid) (messages st) = Some (i, m) →
     Message.id m = uuid ∧
     Message.text m = txt ∧
     Message.username m = User.username user ∧
     Message.timestamp m = now ∧
     (sid ∉ Message.voters m →
      ∀ d,
        let voted :=
          {| messages :=
               <[i := {| Message.id := uuid; Message.text := txt;
                         Message.username := User.username user;
                         Message.timestamp := now;
                         Message.votes :=
                           (Message.votes m + direction_delta d)%Z;
                         Message.voters := Message.voters m ++ [sid] |}]>
                 (messages st);
             users := users st |} in
        on_vote_message sid (vote_payload uuid (JStr (direction_name d))) st =
          Ok (voted,
              [ io_emit (message_updated uuid
                           (Message.votes m + direction_delta d)%Z
                           (Message.voters m ++ [sid])) ]) ∧
        ∀ voteType,
          ∃ out', on_vote_message sid (vote_payload uuid voteType) voted
                  = Ok (voted, out'))).
Proof.
  split_and!.
  - intros sid user data txt uuid now st d Hu Ht Hfresh.
    eexists _, (length (drop (evicted st) (messages st))).
    split; [by apply on_send_message_ok|]. cbn [messages].
    assert (find_message (JStr uuid)
              (drop (evicted st) (messages st) ++ [fresh_message uuid txt user now])
            = Some (length (drop (evicted st) (messages st)),
                    fresh_message uuid txt user now)) as Hfind.
    { apply (find_message_last _ (fresh_message uuid txt user now)). simpl.
      intros Hin. apply Hfresh. unfold ids.
      apply list_elem_of_fmap in Hin as (m & -> & Hm%elem_of_drop).
      apply list_elem_of_fmap. eauto. }
    split; [done|]. intros voter.
    rewrite (on_vote_message_found voter
               (vote_payload uuid (JStr (direction_name d)))
               {| messages := drop (evicted st) (messages st) ++
                                [fresh_message uuid txt user now];
                  users := users st |}
               (JStr uuid) (JStr (direction_name d)) _ _
               eq_refl eq_refl Hfind).
    rewrite cast_vote_direction by apply not_elem_of_nil.
    cbn [messages users]. destruct d; reflexivity.
  - intros voteType voter name m. unfold cast_vote. simpl.
    by repeat case_match.
  - intros st voter data messageId i m d Hm Hv Hf Hnew.
    by apply (on_vote_message_counted _ _ _ messageId).
  - intros tr1 tr2 sid user data txt uuid now st1 out1 st out i m
      Hnd Hr1 Hu Ht Hrun Hf.
    destruct (authored_message _ _ _ _ _ _ _ _ _ _ _ _ _ _ Hnd Hr1 Hu Ht Hrun Hf)
      as (Hid & Htxt & Hname & Htime). simpl in Hid, Htxt, Hname, Htime.
    split_and!; [done..|]. intros Hnew d voted.
    pose proof (find_message_Some _ _ _ _ Hf) as (Hi & _).
    assert (voted = {| messages := <[i := counted d sid m]> (messages st);
                       users := users st |}) as Hvoted.
    { unfold voted, counted. by rewrite Hid, Htxt, Hname, Htime. }
    split.
    + rewrite (on_vote_message_counted sid
                 (vote_payload uuid (JStr (direction_name d))) st (JStr uuid)
                 i m d eq_refl eq_refl Hf Hnew).
      by rewrite Hvoted, Hid.
    + intros voteType. eexists.
      apply (on_vote_message_unchanged sid (vote_payload uuid voteType) voted
               (JStr uuid) voteType i (counted d sid m) eq_refl eq_refl).
      * rewrite Hvoted. cbn [messages].
        rewrite (find_message_insert _ _ _ m) by done. rewrite Hf.
        by rewrite decide_True.
      * apply cast_vote_voted. simpl. apply elem_of_app. right. by left.
Qed.

Lemma self_vote_counts_witness :
  (∃ st1 i,
     on_send_message "A" (text_payload "mine") "m2" 30 scenario_state =
       Ok (st1, [ io_emit (new_message
                    (fresh_message "m2" (JStr "mine") (User.mk "SilentUser1" 10) 30)) ]) ∧
     find_message (JStr "m2") (messages st1)
       = Some (i, fresh_message "m2" (JStr "mine") (User.mk "SilentUser1" 10) 30) ∧
     ∀ voter,
       on_vote_message voter (vote_payload "m2" (JStr (direction_name Down))) st1 =
         Ok ({| messages :=
                  <[i := Message.mk "m2" (JStr "mine") "SilentUser1" 30
                           (direction_delta Down) [voter]]> (messages st1);
                users := users st1 |},
             [ io_emit (message_updated "m2" (direction_delta Down) [voter]) ])) ∧
  on_vote_message "A" (vote_payload "m1" (JStr "up")) scenario_state =
    Ok ({| messages :=
             [ Message.mk "m1" (JStr "hello") "SilentUser1" 20 1 ["B"; "C"; "A"] ];
           users := users scenario_state |},
        [ io_emit (message_updated "m1" 1 ["B"; "C"; "A"]) ]) ∧
  ∃ out',
    on_vote_message "A" (vote_payload "m1" (JStr "down"))
        {| messages :=
             [ Message.mk "m1" (JStr "hello") "SilentUser1" 20 1 ["B"; "C"; "A"] ];
           users := users scenario_state |}
      = Ok ({| messages :=
                 [ Message.mk "m1" (JStr "hello") "SilentUser1" 20 1
                     ["B"; "C"; "A"] ];
               users := users scenario_state |}, out').
Proof.
  split.
  - apply (proj1 self_vote_counts "A" (User.mk "SilentUser1" 10)
             (text_payload "mine") (JStr "mine") "m2" 30%Z scenario_state Down).
    + vm_compute. reflexivity.
    + reflexivity.
    + apply (bool_decide_unpack _). vm_compute. exact I.
  - destruct (proj2 (proj2 (proj2 self_vote_counts))
                (take 3 scenario_votes) (drop 4 scenario_votes)
                "A" (User.mk "SilentUser1" 10) (text_payload "hello")
                (JStr "hello") "m1" 20%Z
                (state_after (take 3 scenario_votes) initial_state)
                (output_after (take 3 scenario_votes) initial_state)
                scenario_state (output_after scenario_votes initial_state)
                0 scenario_message)
      as (_ & _ & _ & _ & Hvote).
    + apply (bool_decide_unpack _). vm_compute. exact I.
    + vm_compute. reflexivity.
    + vm_compute. reflexivity.
    + reflexivity.
    + vm_compute. reflexivity.
    + vm_compute. reflexivity.
    + destruct (Hvote ltac:(apply (bool_decide_unpack _); vm_compute; exact I) Up)
        as [H1 H2].
      split; [exact H1|exact (H2 (JStr "down"))].
Defined.
